(** * Session store and conversation runner of
      notebooks/prompting/01-basic-prompt-structures.ipynb

    The notebook keeps one [InMemoryHistory] object per session identifier in
    the global dictionary [store]; [get_by_session_id] creates the object on
    first use.  Python objects are mutable and shared, so the embedding keeps
    an explicit object heap: the dictionary maps a session identifier to the
    address of its history object, and the history object holds the address
    of its [messages] list. *)

From stdpp Require Import gmap strings list fin_maps.

(** ** Messages *)

(** Modelled from the spec: [BaseMessage] is imported from langchain_core and
    is not defined in the notebook.  The spec's data model gives a message a
    role, user or assistant, and a text content; the prompt of the notebook
    names the user role "human". *)
Inductive BaseMessage : Type :=
  | HumanMessage (content : string)
  | AIMessage (content : string).

(** ** Objects, heap and state *)

Abbreviation addr := positive.

(** The two kinds of object the notebook's code allocates: a Python list of
    messages, and an [InMemoryHistory] whose field [messages] refers to a
    list object. *)
Inductive obj : Type :=
  | ListObj (items : list BaseMessage)
  | HistObj (messages : addr).

Record State : Type := mkState {
  heap : gmap addr obj;
  store : gmap string addr
}.

(** [store = {}] on a heap without objects. *)
Definition init : State := mkState ∅ ∅.

(** ** Exceptions and the computation monad

    A Python call either returns a value or raises; in both cases the
    mutations it made stay. *)
Inductive exn (E : Type) : Type :=
  | KeyError (key : string)
  | AttributeError (a : addr)
  | ModelError (e : E).
Arguments KeyError {E} key.
Arguments AttributeError {E} a.
Arguments ModelError {E} e.

Inductive result (E A : Type) : Type :=
  | Ok (a : A)
  | Raise (e : exn E).
Arguments Ok {E A} a.
Arguments Raise {E A} e.

Definition M (E A : Type) : Type := State → result E A * State.

#[global] Instance M_ret {E} : MRet (M E) := λ A a σ, (Ok a, σ).
#[global] Instance M_bind {E} : MBind (M E) := λ A B k m σ,
  match m σ with
  | (Ok a, σ') => k a σ'
  | (Raise e, σ') => (Raise e, σ')
  end.
Definition raise {E A} (e : exn E) : M E A := λ σ, (Raise e, σ).

(** Allocation returns an address no object of the heap has. *)
Definition alloc {E} (o : obj) : M E addr :=
  λ σ, let a := fresh (dom (heap σ)) in
       (Ok a, mkState (<[a := o]> (heap σ)) (store σ)).

Definition get_heap {E} : M E (gmap addr obj) := λ σ, (Ok (heap σ), σ).
Definition get_store {E} : M E (gmap string addr) := λ σ, (Ok (store σ), σ).
Definition set_obj {E} (a : addr) (o : obj) : M E unit :=
  λ σ, (Ok tt, mkState (<[a := o]> (heap σ)) (store σ)).
Definition set_item {E} (k : string) (a : addr) : M E unit :=
  λ σ, (Ok tt, mkState (heap σ) (<[k := a]> (store σ))).

(** [store[k]] raises [KeyError] on a missing key. *)
Definition get_item {E} (k : string) : M E addr :=
  λ σ, match store σ !! k with
       | Some a => (Ok a, σ)
       | None => (Raise (KeyError k), σ)
       end.

(** ** InMemoryHistory *)

Section InMemoryHistory.
Context {E : Type}.

(** [InMemoryHistory()]: the field default [Field(default_factory=list)]
    builds a new empty list for every instance. *)
Definition InMemoryHistory_new : M E addr :=
  l ← alloc (ListObj []);
  alloc (HistObj l).

(** Reading [self.messages]: the address of the list object. *)
Definition get_messages_ref (self : addr) : M E addr :=
  h ← get_heap;
  match h !! self with
  | Some (HistObj l) => mret l
  | _ => raise (AttributeError self)
  end.

(** Reading the items of a list object. *)
Definition list_items (l : addr) : M E (list BaseMessage) :=
  h ← get_heap;
  match h !! l with
  | Some (ListObj ms) => mret ms
  | _ => raise (AttributeError l)
  end.

(** [list.extend]: the list object is changed in place. *)
Definition list_extend (l : addr) (new : list BaseMessage) : M E unit :=
  ms ← list_items l;
  set_obj l (ListObj (ms ++ new)).

(** [def add_messages(self, messages): self.messages.extend(messages)] *)
Definition add_messages (self : addr) (messages : list BaseMessage) : M E unit :=
  l ← get_messages_ref self;
  list_extend l messages.

(** [def clear(self): self.messages = []]: the field is bound to a new
    empty list; the old list object is left as it is.  The method exists
    on history objects only, which the first line checks. *)
Definition clear (self : addr) : M E unit :=
  get_messages_ref self;;
  l ← alloc (ListObj []);
  set_obj self (HistObj l).

(** [def get_by_session_id(session_id)]:
    [if session_id not in store: store[session_id] = InMemoryHistory()]
    [return store[session_id]] *)
Definition get_by_session_id (session_id : string) : M E addr :=
  st ← get_store;
  (if decide (session_id ∉ dom st)
   then (h ← InMemoryHistory_new; set_item session_id h)
   else mret tt);;
  get_item session_id.

End InMemoryHistory.

(** ** Observing a state *)

(** The messages of the history object at [a]. *)
Definition messages_of (a : addr) (σ : State) : option (list BaseMessage) :=
  match heap σ !! a with
  | Some (HistObj l) =>
      match heap σ !! l with
      | Some (ListObj ms) => Some ms
      | _ => None
      end
  | _ => None
  end.

(** The messages recorded for a session; a session the store has not seen
    has none. *)
Definition history (s : string) (σ : State) : list BaseMessage :=
  match store σ !! s with
  | Some a => default [] (messages_of a σ)
  | None => []
  end.

(** ** The model client and the conversation runner *)

(** A program that talks to the model client: it is finished, or it sends a
    request and goes on with the client's answer, an error or a text. *)
Inductive Prog (E A : Type) : Type :=
  | Done (a : A)
  | Invoke (request : list BaseMessage) (k : E + string → Prog E A).
Arguments Done {E A} a.
Arguments Invoke {E A} request k.

(** A model client answers a request and may change the world [W] it lives
    in (the remote service, the network, a log). *)
Definition Client (E W : Type) : Type :=
  list BaseMessage → W → (E + string) * W.

Fixpoint run {E W A} (llm : Client E W) (p : Prog E A) (w : W) : A * W :=
  match p with
  | Done a => (a, w)
  | Invoke request k =>
      let '(ans, w') := llm request w in run llm (k ans) w'
  end.

(** The requests a program sends, in order, while the client gives the
    listed answers; it stops at the first request left without an answer. *)
Fixpoint requests {E A} (p : Prog E A) (answers : list (E + string))
  : list (list BaseMessage) :=
  match p with
  | Done _ => []
  | Invoke request k =>
      request :: match answers with
                 | [] => []
                 | ans :: rest => requests (k ans) rest
                 end
  end.

Fixpoint pbind {E A B} (p : Prog E A) (f : A → Prog E B) : Prog E B :=
  match p with
  | Done a => f a
  | Invoke request k => Invoke request (λ ans, pbind (k ans) f)
  end.

Section Runner.
Context {E : Type}.

(** [prompt = ChatPromptTemplate.from_messages(
      [MessagesPlaceholder(variable_name="history"), ("human", "{question}")])] *)
Definition prompt (history : list BaseMessage) (question : string)
  : list BaseMessage :=
  history ++ [HumanMessage question].

(** [chain = prompt | llm] *)
Definition chain (history : list BaseMessage) (question : string)
  : Prog E (E + string) :=
  Invoke (prompt history question) Done.

(** [llm.invoke(prompt)] on a string, the single-turn call of the notebook:
    the string is sent as one user message, without any history. *)
Definition single_turn (question : string) : Prog E (E + string) :=
  Invoke [HumanMessage question] Done.

(** Modelled from the spec: step 1 of the runner of section 4.2, which is
    part of langchain_core's [invoke]: the history object of the session
    and a copy of the messages it holds at that time. *)
Definition load_history (session_id : string)
  : M E (addr * list BaseMessage) :=
  hist ← get_by_session_id session_id;
  l ← get_messages_ref hist;
  ms ← list_items l;
  mret (hist, ms).

(** Modelled from the spec: steps 4 and 5 of the runner of section 4.2,
    through the notebook's [add_messages]. *)
Definition record_turn (hist : addr) (question text : string) : M E string :=
  add_messages hist [HumanMessage question; AIMessage text];;
  mret text.

(** Modelled from the spec: [conversation = RunnableWithMessageHistory(
    chain, get_by_session_id, input_messages_key="question",
    history_messages_key="history")] wires the notebook's [chain] and
    [get_by_session_id] into langchain_core's runner, whose [invoke] is not
    in the notebook.  [conversation session_id question] stands for
    [conversation.invoke({"question": question}, config).content] with the
    session identifier in [config]; the spec calls it respond(sessionId,
    userText).  Following section 4.2 of the spec: fetch the session's
    history, send the prior history followed by the new user message, and
    after a successful answer append the user message and the assistant
    message, in that order, and return the text; a failure of the client is
    raised to the caller and nothing is appended. *)
Definition conversation (session_id question : string) (σ : State)
  : Prog E (result E string * State) :=
  match load_history session_id σ with
  | (Raise e, σ1) => Done (Raise e, σ1)
  | (Ok (hist, ms), σ1) =>
      pbind (chain ms question) (λ ans,
        match ans with
        | inl e => Done (Raise (ModelError e), σ1)
        | inr text => Done (record_turn hist question text σ1)
        end)
  end.

(** ** Operations a caller can perform, for reachability *)
Inductive op : Type :=
  | Op_get (session_id : string)
  | Op_add (a : addr) (messages : list BaseMessage)
  | Op_clear (a : addr)
  | Op_invoke (session_id question : string) (answer : E + string).

Definition exec (o : op) (σ : State) : State :=
  match o with
  | Op_get s => snd (get_by_session_id (E:=E) s σ)
  | Op_add a ms => snd (add_messages (E:=E) a ms σ)
  | Op_clear a => snd (clear (E:=E) a σ)
  | Op_invoke s q ans =>
      snd (fst (run (λ _ w, (ans, w)) (conversation s q σ) tt))
  end.

Definition execs (os : list op) (σ : State) : State :=
  foldl (λ σ o, exec o σ) σ os.

End Runner.

Arguments op E : clear implicits.

(** What the spec lists as failures of the model client. *)
Inductive client_error : Type :=
  | NetworkError
  | MalformedResponse
  | RateLimit.


(** A client for examples: it answers from a script, one entry per call,
    and reports a network failure once the script is used up. *)
Definition scripted : Client client_error (list (client_error + string)) :=
  λ _ w, match w with
         | ans :: w' => (ans, w')
         | [] => (inl NetworkError, [])
         end.

(** States for examples: session s1 after one and after two successful
    turns, and the latter after a turn of another session. *)
Definition turn1 : State :=
  execs [Op_invoke (E:=client_error) "s1" "Q1" (inr "A1")] init.
Definition turn2 : State :=
  execs [Op_invoke (E:=client_error) "s1" "Q2" (inr "A2")] turn1.
Definition turn3 : State :=
  execs [Op_invoke (E:=client_error) "bar" "Q0" (inr "A0")] turn2.

(** The multi-turn run of the notebook's last cell, session bar, with the
    answers it printed for the first two questions (shortened). *)
Definition bar_run : State :=
  execs [Op_invoke (E:=client_error) "bar" "What is the capital of France?"
           (inr "Paris");
         Op_invoke "bar" "What is its population?"
           (inr "Around 2.1 million people.")] init.

(** ** The states the operations produce

    These functions are not in the notebook: they name the state each
    operation ends in, and the lemmas [get_by_session_id_resolve],
    [add_messages_extended] and [clear_cleared] tie them to the code. *)

(** The state [get_by_session_id] leaves when the identifier is new. *)
Definition created (s : string) (σ : State) : addr * State :=
  let l := fresh (dom (heap σ)) in
  let h1 := <[l := ListObj []]> (heap σ) in
  let a := fresh (dom h1) in
  (a, mkState (<[a := HistObj l]> h1) (<[s := a]> (store σ))).

(** The object and the state [get_by_session_id] yields. *)
Definition resolve (s : string) (σ : State) : addr * State :=
  match store σ !! s with
  | Some a => (a, σ)
  | None => created s σ
  end.

(** The state after [new] was appended to the history at [a]. *)
Definition extended (a : addr) (new : list BaseMessage) (σ : State) : State :=
  match heap σ !! a with
  | Some (HistObj l) =>
      match heap σ !! l with
      | Some (ListObj ms) =>
          mkState (<[l := ListObj (ms ++ new)]> (heap σ)) (store σ)
      | _ => σ
      end
  | _ => σ
  end.

(** The state after the history at [a] was cleared. *)
Definition cleared (a : addr) (σ : State) : State :=
  match heap σ !! a with
  | Some (HistObj _) =>
      let l' := fresh (dom (heap σ)) in
      mkState (<[a := HistObj l']> (<[l' := ListObj []]> (heap σ))) (store σ)
  | _ => σ
  end.

(** ** Well-formed states

    Every entry of the store is a history object, every history object has
    a list object for its messages, no list is the messages of two
    histories, and no history is stored under two identifiers. *)
Record wf (σ : State) : Prop := mkWf {
  wf_store : ∀ s a, store σ !! s = Some a → ∃ l, heap σ !! a = Some (HistObj l);
  wf_hist : ∀ a l, heap σ !! a = Some (HistObj l) →
                   ∃ ms, heap σ !! l = Some (ListObj ms);
  wf_unshared : ∀ a1 a2 l, heap σ !! a1 = Some (HistObj l) →
                           heap σ !! a2 = Some (HistObj l) → a1 = a2;
  wf_inj : ∀ s1 s2 a, store σ !! s1 = Some a → store σ !! s2 = Some a → s1 = s2
}.

(** ** The other cells of the notebook *)

(** Answering the requests of a program from a list of answers: the result
    and the answers left over, or nothing when the answers run out before
    the program ends. *)
Fixpoint replay {E A} (p : Prog E A) (answers : list (E + string))
  : option (A * list (E + string)) :=
  match p with
  | Done a => Some (a, answers)
  | Invoke _ k =>
      match answers with
      | [] => None
      | ans :: rest => replay (k ans) rest
      end
  end.

(** The line feed the notebook's f-strings end an answer with. *)
Definition newline : string := String (Ascii.ascii_of_nat 10) EmptyString.

(** [f"Q: {prompt}"] and [f"A: {response}\n"], the two lines the loops
    print for a turn. *)
Definition Q_line (prompt : string) : string := String.append "Q: " prompt.
Definition A_line (response : string) : string :=
  String.append "A: " (String.append response newline).

Section Cells.
Context {E : Type}.

(** [structured_prompt = PromptTemplate(input_variables=["topic"],
      template="Provide a brief explanation of {topic} and list its three
      main components.")]: the template with the topic in the place of
    its one variable. *)
Definition structured_prompt (topic : string) : string :=
  String.append "Provide a brief explanation of "
    (String.append topic " and list its three main components.").

(** [chain = structured_prompt | llm], invoked with [{"topic": topic}]: the
    formatted text is sent as one user message. *)
Definition structured_chain (topic : string) : Prog E (E + string) :=
  Invoke [HumanMessage (structured_prompt topic)] Done.

(** The first loop of the last cell; [out] collects what is printed:
    [for prompt in prompts:]
    [    print(f"Q: {prompt}")]
    [    print(f"A: {llm.invoke(prompt).content}\n")]
    An error of the client ends the loop, as nothing catches it. *)
Fixpoint single_turn_loop (prompts : list string) (out : list string)
  : Prog E (result E unit * list string) :=
  match prompts with
  | [] => Done (Ok tt, out)
  | prompt :: rest =>
      let out1 := out ++ [Q_line prompt] in
      pbind (single_turn prompt) (λ ans,
        match ans with
        | inl e => Done (Raise (ModelError e), out1)
        | inr text => single_turn_loop rest (out1 ++ [A_line text])
        end)
  end.

(** The second loop of the last cell, which the notebook runs with the
    session identifier "bar":
    [for prompt in prompts:]
    [    print(f"Q: {prompt}")]
    [    response = conversation.invoke(input={"question": prompt},
                      config={"configurable": {"session_id": "bar"}}).content]
    [    print(f"A: {response}\n")] *)
Fixpoint multi_turn_loop (session_id : string) (prompts : list string)
    (out : list string) (σ : State)
  : Prog E (result E unit * State * list string) :=
  match prompts with
  | [] => Done (Ok tt, σ, out)
  | prompt :: rest =>
      let out1 := out ++ [Q_line prompt] in
      pbind (conversation session_id prompt σ) (λ '(r, σ1),
        match r with
        | Raise e => Done (Raise e, σ1, out1)
        | Ok response =>
            multi_turn_loop session_id rest (out1 ++ [A_line response]) σ1
        end)
  end.

(** The session identifier an operation hands to [get_by_session_id]. *)
Definition session_of (o : op E) : option string :=
  match o with
  | Op_get s => Some s
  | Op_invoke s _ _ => Some s
  | Op_add _ _ => None
  | Op_clear _ => None
  end.

End Cells.

(** ** Turns, as lists

    What a run of turns amounts to, for stating the theorems on the loops:
    the messages of the completed turns, the lines printed for them, and
    the requests they send on top of the messages [hist]. *)
Fixpoint turns (prompts answers : list string) : list BaseMessage :=
  match prompts, answers with
  | p :: ps, a :: rest => HumanMessage p :: AIMessage a :: turns ps rest
  | _, _ => []
  end.

Fixpoint transcript (prompts answers : list string) : list string :=
  match prompts, answers with
  | p :: ps, a :: rest => Q_line p :: A_line a :: transcript ps rest
  | _, _ => []
  end.

Fixpoint turn_requests (hist : list BaseMessage) (prompts answers : list string)
  : list (list BaseMessage) :=
  match prompts, answers with
  | p :: ps, a :: rest =>
      (hist ++ [HumanMessage p])
      :: turn_requests (hist ++ [HumanMessage p; AIMessage a]) ps rest
  | _, _ => []
  end.

(** The messages a turn records: both for an answer, none for an error. *)
Definition turn_messages {E} (question : string) (ans : E + string)
  : list BaseMessage :=
  match ans with
  | inl _ => []
  | inr text => [HumanMessage question; AIMessage text]
  end.

(** The state a successful turn of session [s] leaves. *)
Definition turn_state (s question text : string) (σ : State) : State :=
  extended (resolve s σ).1 [HumanMessage question; AIMessage text]
    (resolve s σ).2.

(** * Properties *)

Lemma fresh_heap_None (h : gmap addr obj) : h !! fresh (dom h) = None.
Proof. apply not_elem_of_dom, is_fresh. Qed.

Lemma wf_init : wf init.
Proof. split; simpl; intros *; rewrite ?lookup_empty; done. Qed.

Section Basic.
Context {E : Type}.
Implicit Types (σ : State) (s : string) (a l : addr) (ms : list BaseMessage).

Lemma get_by_session_id_seen s a σ :
  store σ !! s = Some a →
  get_by_session_id (E:=E) s σ = (Ok a, σ).
Proof.
  intros Hs. unfold get_by_session_id, get_item, mbind, M_bind, get_store. simpl.
  case_decide as Hd.
  - exfalso. apply Hd, elem_of_dom. eauto.
  - simpl. by rewrite Hs.
Qed.

Lemma get_by_session_id_unseen s σ :
  store σ !! s = None →
  get_by_session_id (E:=E) s σ = (Ok (created s σ).1, (created s σ).2).
Proof.
  intros Hs. unfold get_by_session_id, get_item, mbind, M_bind, get_store. simpl.
  case_decide as Hd.
  - simpl. by rewrite lookup_insert_eq.
  - apply elem_of_dom in Hd as [a Ha]. congruence.
Qed.

Lemma add_messages_hist a l ms new σ :
  heap σ !! a = Some (HistObj l) →
  heap σ !! l = Some (ListObj ms) →
  add_messages (E:=E) a new σ
  = (Ok tt, mkState (<[l := ListObj (ms ++ new)]> (heap σ)) (store σ)).
Proof.
  intros Ha Hl.
  unfold add_messages, get_messages_ref, list_extend, list_items,
    mbind, M_bind, get_heap. simpl.
  rewrite Ha. simpl. by rewrite Hl.
Qed.

Lemma clear_hist a l σ :
  heap σ !! a = Some (HistObj l) →
  clear (E:=E) a σ
  = (Ok tt, let l' := fresh (dom (heap σ)) in
            mkState (<[a := HistObj l']> (<[l' := ListObj []]> (heap σ)))
                    (store σ)).
Proof.
  intros Ha. unfold clear, get_messages_ref, mbind, M_bind, get_heap. simpl.
  by rewrite Ha.
Qed.

End Basic.

(** ** The three ways the code changes a state keep it well formed *)

Section Preservation.
Implicit Types (σ : State) (s : string) (a l : addr) (ms : list BaseMessage).

Lemma wf_alloc_hist σ s l a :
  wf σ → heap σ !! l = None → heap σ !! a = None → a ≠ l →
  wf (mkState (<[a := HistObj l]> (<[l := ListObj []]> (heap σ)))
              (<[s := a]> (store σ))).
Proof.
  intros [Hst Hh Hu Hi] Hl Ha Hal. split; simpl.
  - intros s' a'. rewrite lookup_insert. case_decide as Hs.
    + intros [= <-]. exists l. by rewrite lookup_insert_eq.
    + intros Hs'. destruct (Hst _ _ Hs') as [l' Hl'].
      exists l'. rewrite !lookup_insert_ne; [done | congruence..].
  - intros a' l'. rewrite lookup_insert. case_decide as Hd.
    + intros [= <-]. exists [].
      rewrite lookup_insert_ne by done. by rewrite lookup_insert_eq.
    + rewrite lookup_insert. case_decide; [done |].
      intros Ha'. destruct (Hh _ _ Ha') as [ms Hms].
      exists ms. rewrite !lookup_insert_ne; [done | congruence..].
  - intros a1 a2 l0. rewrite !lookup_insert.
    repeat case_decide; subst; try done.
    + intros [= <-] H2. destruct (Hh _ _ H2) as [? ?]. congruence.
    + intros H1 [= <-]. destruct (Hh _ _ H1) as [? ?]. congruence.
    + apply Hu.
  - intros s1 s2 a0. rewrite !lookup_insert.
    repeat case_decide; subst; try done.
    + intros [= <-] H2. destruct (Hst _ _ H2) as [? ?]. congruence.
    + intros H1 [= <-]. destruct (Hst _ _ H1) as [? ?]. congruence.
    + apply Hi.
Qed.

Lemma wf_extend σ l ms ms' :
  wf σ → heap σ !! l = Some (ListObj ms) →
  wf (mkState (<[l := ListObj ms']> (heap σ)) (store σ)).
Proof.
  intros [Hst Hh Hu Hi] Hl. split; simpl.
  - intros s a Hs. destruct (Hst _ _ Hs) as [l' Hl'].
    exists l'. rewrite lookup_insert_ne; [done | congruence].
  - intros a l'. rewrite !lookup_insert. case_decide; [done |].
    intros Ha. destruct (Hh _ _ Ha) as [ms0 Hms0].
    case_decide; eauto.
  - intros a1 a2 l0. rewrite !lookup_insert.
    repeat case_decide; try done. apply Hu.
  - done.
Qed.

Lemma wf_rebind σ a l l' :
  wf σ → heap σ !! a = Some (HistObj l) → heap σ !! l' = None →
  wf (mkState (<[a := HistObj l']> (<[l' := ListObj []]> (heap σ)))
              (store σ)).
Proof.
  intros [Hst Hh Hu Hi] Ha Hl'.
  assert (a ≠ l') as Hne by congruence. split; simpl.
  - intros s a0 Hs. destruct (Hst _ _ Hs) as [l0 Hl0].
    rewrite lookup_insert. case_decide; [eauto |].
    exists l0. rewrite lookup_insert_ne; [done | congruence].
  - intros a0 l0. rewrite lookup_insert. case_decide as Hd.
    + intros [= <-]. exists [].
      rewrite lookup_insert_ne by done. by rewrite lookup_insert_eq.
    + rewrite lookup_insert. case_decide; [done |].
      intros Ha0. destruct (Hh _ _ Ha0) as [ms Hms].
      exists ms. rewrite !lookup_insert_ne; [done | congruence..].
  - intros a1 a2 l0. rewrite !lookup_insert.
    repeat case_decide; subst; try done.
    + intros [= <-] H2. destruct (Hh _ _ H2) as [? ?]. congruence.
    + intros H1 [= <-]. destruct (Hh _ _ H1) as [? ?]. congruence.
    + apply Hu.
  - done.
Qed.

Lemma wf_created s σ : wf σ → store σ !! s = None → wf (created s σ).2.
Proof.
  intros Hwf Hs. unfold created. simpl.
  set (l := fresh (dom (heap σ))).
  set (a := fresh (dom (<[l := ListObj []]> (heap σ)))).
  assert (heap σ !! l = None) as Hl by apply fresh_heap_None.
  assert (<[l := ListObj []]> (heap σ) !! a = None) as Ha
    by apply fresh_heap_None.
  apply lookup_insert_None in Ha as [Ha Hne].
  by apply wf_alloc_hist.
Qed.

End Preservation.

(** ** What each operation does to a state *)

Section Effects.
Context {E : Type}.
Implicit Types (σ : State) (s : string) (a l : addr) (ms : list BaseMessage).

Lemma get_by_session_id_resolve s σ :
  get_by_session_id (E:=E) s σ = (Ok (resolve s σ).1, (resolve s σ).2).
Proof.
  unfold resolve. destruct (store σ !! s) as [a|] eqn:Hs.
  - by apply get_by_session_id_seen.
  - by apply get_by_session_id_unseen.
Qed.

Lemma add_messages_extended a new σ :
  snd (add_messages (E:=E) a new σ) = extended a new σ.
Proof.
  unfold extended.
  destruct (heap σ !! a) as [[ms|l]|] eqn:Ha;
    try (unfold add_messages, get_messages_ref, mbind, M_bind, get_heap;
         simpl; by rewrite Ha).
  destruct (heap σ !! l) as [[ms|l']|] eqn:Hl;
    unfold add_messages, get_messages_ref, list_extend, list_items,
      mbind, M_bind, get_heap; simpl; rewrite Ha; simpl; by rewrite Hl.
Qed.

Lemma add_messages_ok a ms new σ :
  messages_of a σ = Some ms →
  add_messages (E:=E) a new σ = (Ok tt, extended a new σ).
Proof.
  unfold messages_of, extended. intros Hm.
  destruct (heap σ !! a) as [[?|l]|] eqn:Ha; try done.
  destruct (heap σ !! l) as [[ms'|?]|] eqn:Hl; try done.
  by apply add_messages_hist.
Qed.

Lemma clear_cleared a σ : snd (clear (E:=E) a σ) = cleared a σ.
Proof.
  unfold cleared.
  destruct (heap σ !! a) as [[ms|l]|] eqn:Ha;
    unfold clear, get_messages_ref, mbind, M_bind, get_heap;
    simpl; by rewrite Ha.
Qed.

Lemma clear_ok a ms σ :
  messages_of a σ = Some ms → clear (E:=E) a σ = (Ok tt, cleared a σ).
Proof.
  unfold messages_of, cleared. intros Hm.
  destruct (heap σ !! a) as [[?|l]|] eqn:Ha; try done.
  by rewrite (clear_hist a l).
Qed.

End Effects.

Section StateLemmas.
Implicit Types (σ : State) (s : string) (a l : addr) (ms : list BaseMessage).

Lemma wf_messages_of σ s a :
  wf σ → store σ !! s = Some a → ∃ ms, messages_of a σ = Some ms.
Proof.
  intros Hwf Hs. destruct (wf_store _ Hwf _ _ Hs) as [l Hl].
  destruct (wf_hist _ Hwf _ _ Hl) as [ms Hms].
  exists ms. unfold messages_of. by rewrite Hl, Hms.
Qed.

Lemma wf_resolve s σ : wf σ → wf (resolve s σ).2.
Proof.
  intros Hwf. unfold resolve. destruct (store σ !! s) eqn:Hs; [done |].
  by apply wf_created.
Qed.

Lemma wf_extended a new σ : wf σ → wf (extended a new σ).
Proof.
  intros Hwf. unfold extended.
  destruct (heap σ !! a) as [[?|l]|]; try done.
  destruct (heap σ !! l) as [[ms|?]|] eqn:Hl; try done.
  by eapply wf_extend.
Qed.

Lemma wf_cleared a σ : wf σ → wf (cleared a σ).
Proof.
  intros Hwf. unfold cleared.
  destruct (heap σ !! a) as [[?|l]|] eqn:Ha; try done.
  eapply wf_rebind; [done | done | apply fresh_heap_None].
Qed.

Lemma store_resolve_same s σ : store (resolve s σ).2 !! s = Some (resolve s σ).1.
Proof.
  unfold resolve. destruct (store σ !! s) eqn:Hs; [done |].
  simpl. by rewrite lookup_insert_eq.
Qed.

Lemma store_resolve_mono s s' a σ :
  store σ !! s' = Some a → store (resolve s σ).2 !! s' = Some a.
Proof.
  intros Hs'. unfold resolve. destruct (store σ !! s) eqn:Hs; [done |].
  simpl. rewrite lookup_insert_ne; [done | congruence].
Qed.

Lemma store_resolve_other s s' σ :
  s ≠ s' → store (resolve s σ).2 !! s' = store σ !! s'.
Proof.
  intros Hne. unfold resolve. destruct (store σ !! s) eqn:Hs; [done |].
  simpl. by rewrite lookup_insert_ne.
Qed.

Lemma store_extended a new σ : store (extended a new σ) = store σ.
Proof.
  unfold extended. destruct (heap σ !! a) as [[?|l]|]; try done.
  by destruct (heap σ !! l) as [[?|?]|].
Qed.

Lemma store_cleared a σ : store (cleared a σ) = store σ.
Proof. unfold cleared. by destruct (heap σ !! a) as [[?|l]|]. Qed.

End StateLemmas.

(** ** Messages and histories across the operations *)

Section Histories.
Implicit Types (σ : State) (s : string) (a l : addr).
Implicit Types (ms new : list BaseMessage).

Lemma messages_of_subseteq a ms σ σ' :
  heap σ ⊆ heap σ' → messages_of a σ = Some ms → messages_of a σ' = Some ms.
Proof.
  intros Hsub. unfold messages_of.
  destruct (heap σ !! a) as [[?|l]|] eqn:Ha; try done.
  destruct (heap σ !! l) as [[ms'|?]|] eqn:Hl; try done.
  intros [= <-].
  by rewrite (lookup_weaken _ _ _ _ Ha Hsub), (lookup_weaken _ _ _ _ Hl Hsub).
Qed.

Lemma heap_created_subseteq s σ : heap σ ⊆ heap (created s σ).2.
Proof.
  unfold created. simpl.
  etrans; [| apply insert_subseteq, fresh_heap_None].
  apply insert_subseteq, fresh_heap_None.
Qed.

Lemma created_fresh s σ : heap σ !! (created s σ).1 = None.
Proof.
  unfold created. simpl.
  set (l := fresh (dom (heap σ))).
  pose proof (fresh_heap_None (<[l := ListObj []]> (heap σ))) as Ha.
  by apply lookup_insert_None in Ha as [Ha _].
Qed.

Lemma messages_of_created s σ :
  messages_of (created s σ).1 (created s σ).2 = Some [].
Proof.
  unfold created, messages_of. simpl.
  set (l := fresh (dom (heap σ))).
  set (a := fresh (dom (<[l := ListObj []]> (heap σ)))).
  pose proof (fresh_heap_None (<[l := ListObj []]> (heap σ))) as Ha.
  apply lookup_insert_None in Ha as [_ Hne]. fold a in Hne.
  rewrite lookup_insert_eq, lookup_insert_ne by done.
  by rewrite lookup_insert_eq.
Qed.

Lemma history_seen s a ms σ :
  store σ !! s = Some a → messages_of a σ = Some ms → history s σ = ms.
Proof. intros Hs Hm. unfold history. by rewrite Hs, Hm. Qed.

Lemma history_unseen s σ : store σ !! s = None → history s σ = [].
Proof. intros Hs. unfold history. by rewrite Hs. Qed.

Lemma messages_of_resolve s σ :
  wf σ → messages_of (resolve s σ).1 (resolve s σ).2 = Some (history s σ).
Proof.
  intros Hwf. unfold resolve, history.
  destruct (store σ !! s) as [a|] eqn:Hs.
  - destruct (wf_messages_of _ _ _ Hwf Hs) as [ms Hms]. simpl. by rewrite Hms.
  - apply messages_of_created.
Qed.

Lemma history_resolve s s' σ : wf σ → history s' (resolve s σ).2 = history s' σ.
Proof.
  intros Hwf. destruct (decide (s' = s)) as [->|Hne].
  - erewrite history_seen;
      [done | apply store_resolve_same | by apply messages_of_resolve].
  - unfold resolve. destruct (store σ !! s) eqn:Hs; [done |].
    unfold history.
    replace (store (created s σ).2 !! s') with (store σ !! s')
      by (unfold created; simpl; by rewrite lookup_insert_ne).
    destruct (store σ !! s') as [a'|] eqn:Hs'; [| done].
    destruct (wf_messages_of _ _ _ Hwf Hs') as [ms Hms].
    rewrite Hms.
    by rewrite (messages_of_subseteq a' ms σ _ (heap_created_subseteq s σ) Hms).
Qed.

Lemma messages_of_extended_same a ms new σ :
  messages_of a σ = Some ms →
  messages_of a (extended a new σ) = Some (ms ++ new).
Proof.
  unfold messages_of, extended.
  destruct (heap σ !! a) as [[?|l]|] eqn:Ha; try done.
  destruct (heap σ !! l) as [[ms'|?]|] eqn:Hl; try done.
  intros [= <-]. simpl.
  assert (l ≠ a) by congruence.
  rewrite lookup_insert_ne, Ha by done. by rewrite lookup_insert_eq.
Qed.

Lemma messages_of_extended_other a a' new σ :
  wf σ → a' ≠ a → messages_of a' (extended a new σ) = messages_of a' σ.
Proof.
  intros Hwf Hne. unfold extended.
  destruct (heap σ !! a) as [[?|l]|] eqn:Ha; try done.
  destruct (heap σ !! l) as [[ms|?]|] eqn:Hl; try done.
  unfold messages_of. simpl. rewrite lookup_insert. case_decide as Hd.
  - subst a'. by rewrite Hl.
  - destruct (heap σ !! a') as [[?|l']|] eqn:Ha'; try done.
    rewrite lookup_insert_ne; [done |].
    intros ->. apply Hne. by eapply (wf_unshared _ Hwf).
Qed.

Lemma history_extended_same s a new σ :
  wf σ → store σ !! s = Some a →
  history s (extended a new σ) = history s σ ++ new.
Proof.
  intros Hwf Hs. destruct (wf_messages_of _ _ _ Hwf Hs) as [ms Hms].
  rewrite (history_seen s a ms σ) by done.
  apply (history_seen s a); [by rewrite store_extended |].
  by apply messages_of_extended_same.
Qed.

Lemma history_extended_other s s' a new σ :
  wf σ → store σ !! s = Some a → s' ≠ s →
  history s' (extended a new σ) = history s' σ.
Proof.
  intros Hwf Hs Hne. unfold history. rewrite store_extended.
  destruct (store σ !! s') as [a'|] eqn:Hs'; [| done].
  rewrite messages_of_extended_other; [done | done |].
  intros ->. apply Hne. by eapply (wf_inj _ Hwf).
Qed.

Lemma messages_of_cleared_same a ms σ :
  messages_of a σ = Some ms → messages_of a (cleared a σ) = Some [].
Proof.
  unfold messages_of, cleared.
  destruct (heap σ !! a) as [[?|l]|] eqn:Ha; try done.
  intros _. simpl.
  assert (a ≠ fresh (dom (heap σ))) as Hne.
  { intros Heq. pose proof (fresh_heap_None (heap σ)). congruence. }
  rewrite lookup_insert_eq, lookup_insert_ne by done.
  by rewrite lookup_insert_eq.
Qed.

Lemma messages_of_cleared_other a a' σ :
  wf σ → a' ≠ a → is_Some (heap σ !! a') →
  messages_of a' (cleared a σ) = messages_of a' σ.
Proof.
  intros Hwf Hne [o Ho]. unfold cleared.
  destruct (heap σ !! a) as [[?|l]|] eqn:Ha; try done.
  pose proof (fresh_heap_None (heap σ)) as Hf.
  unfold messages_of. simpl.
  rewrite lookup_insert_ne by done.
  rewrite lookup_insert_ne by congruence.
  rewrite Ho. destruct o as [?|l']; [done |].
  destruct (wf_hist _ Hwf _ _ Ho) as [ms Hms].
  rewrite !lookup_insert_ne by congruence. done.
Qed.

End Histories.

(** ** The runner, step by step *)

Section RunnerLemmas.
Context {E : Type}.
Implicit Types (σ : State) (s q text : string) (a l : addr).
Implicit Types (ms new : list BaseMessage) (ans : E + string).

Lemma M_bind_assoc {A B C} (m : M E A) (f : A → M E B) (g : B → M E C) σ :
  ((m ≫= f) ≫= g) σ = (m ≫= (λ x, f x ≫= g)) σ.
Proof. unfold mbind, M_bind. by destruct (m σ) as [[?|?] ?]. Qed.

Lemma read_messages_ok a ms σ :
  messages_of a σ = Some ms →
  (l ← get_messages_ref (E:=E) a; list_items l) σ = (Ok ms, σ).
Proof.
  unfold messages_of, get_messages_ref, list_items, mbind, M_bind, get_heap.
  simpl. destruct (heap σ !! a) as [[?|l]|] eqn:Ha; try done. simpl.
  destruct (heap σ !! l) as [[ms'|?]|] eqn:Hl; try done.
  by intros [= <-].
Qed.

Lemma read_messages_raise a σ :
  messages_of a σ = None →
  ∃ e, (l ← get_messages_ref (E:=E) a; list_items l) σ = (Raise e, σ).
Proof.
  unfold messages_of, get_messages_ref, list_items, mbind, M_bind, get_heap.
  simpl. destruct (heap σ !! a) as [[?|l]|] eqn:Ha; simpl;
    [by eexists | | by eexists].
  destruct (heap σ !! l) as [[ms'|?]|] eqn:Hl; simpl;
    [done | by eexists | by eexists].
Qed.

Lemma load_history_unfold s σ :
  load_history (E:=E) s σ
  = ((l ← get_messages_ref (E:=E) (resolve s σ).1; list_items l) ≫=
     (λ ms, mret ((resolve s σ).1, ms))) (resolve s σ).2.
Proof.
  unfold load_history. unfold mbind at 1. unfold M_bind at 1.
  rewrite get_by_session_id_resolve. symmetry. apply M_bind_assoc.
Qed.

Lemma load_history_ok s σ :
  wf σ →
  load_history (E:=E) s σ
  = (Ok ((resolve s σ).1, history s σ), (resolve s σ).2).
Proof.
  intros Hwf. rewrite load_history_unfold.
  unfold mbind at 1. unfold M_bind at 1.
  by rewrite (read_messages_ok _ _ _ (messages_of_resolve s σ Hwf)).
Qed.

Lemma load_history_raise s σ :
  messages_of (resolve s σ).1 (resolve s σ).2 = None →
  ∃ e, load_history (E:=E) s σ = (Raise e, (resolve s σ).2).
Proof.
  intros Hm. rewrite load_history_unfold.
  destruct (read_messages_raise _ _ Hm) as [e He].
  exists e. unfold mbind at 1. unfold M_bind at 1. by rewrite He.
Qed.

Lemma record_turn_ok a ms q text σ :
  messages_of a σ = Some ms →
  record_turn (E:=E) a q text σ
  = (Ok text, extended a [HumanMessage q; AIMessage text] σ).
Proof.
  intros Hm. unfold record_turn, mbind, M_bind.
  by rewrite (add_messages_ok a ms).
Qed.

(** The shape of [conversation] on a well-formed state: one request, made of
    the session's messages and the question, and then the end. *)
Lemma conversation_unfold s q σ :
  wf σ →
  conversation (E:=E) s q σ
  = Invoke (prompt (history s σ) q) (λ ans,
      pbind (Done ans) (λ ans,
        match ans with
        | inl e => Done (Raise (ModelError e), (resolve s σ).2)
        | inr text =>
            Done (record_turn (resolve s σ).1 q text (resolve s σ).2)
        end)).
Proof. intros Hwf. unfold conversation. by rewrite load_history_ok. Qed.

Lemma requests_conversation s q σ (answers : list (E + string)) :
  wf σ →
  requests (conversation (E:=E) s q σ) answers = [history s σ ++ [HumanMessage q]].
Proof.
  intros Hwf. rewrite conversation_unfold by done.
  by destruct answers as [|[e|text] rest].
Qed.

Lemma run_conversation_error {W} (llm : Client E W) s q σ w e w' :
  wf σ →
  llm (prompt (history s σ) q) w = (inl e, w') →
  run llm (conversation s q σ) w = ((Raise (ModelError e), (resolve s σ).2), w').
Proof. intros Hwf Hllm. rewrite conversation_unfold by done. simpl. by rewrite Hllm. Qed.

Lemma run_conversation_text {W} (llm : Client E W) s q σ w text w' :
  wf σ →
  llm (prompt (history s σ) q) w = (inr text, w') →
  run llm (conversation s q σ) w
  = ((Ok text, extended (resolve s σ).1 [HumanMessage q; AIMessage text]
                 (resolve s σ).2), w').
Proof.
  intros Hwf Hllm. rewrite conversation_unfold by done. simpl. rewrite Hllm. simpl.
  by rewrite (record_turn_ok _ _ _ _ _ (messages_of_resolve s σ Hwf)).
Qed.

(** The state a call of [conversation] leaves, whatever the state before. *)
Lemma exec_invoke s q ans σ :
  exec (Op_invoke s q ans) σ
  = match messages_of (resolve s σ).1 (resolve s σ).2, ans with
    | Some _, inr text =>
        extended (resolve s σ).1 [HumanMessage q; AIMessage text]
          (resolve s σ).2
    | _, _ => (resolve s σ).2
    end.
Proof.
  unfold exec, conversation.
  destruct (messages_of (resolve s σ).1 (resolve s σ).2) as [ms|] eqn:Hm.
  - rewrite load_history_unfold.
    unfold mbind at 1. unfold M_bind at 1.
    rewrite (read_messages_ok _ _ _ Hm). simpl.
    destruct ans as [e|text]; simpl; [done |].
    by rewrite (record_turn_ok _ _ _ _ _ Hm).
  - destruct (load_history_raise s σ Hm) as [e ->]. done.
Qed.

Lemma wf_exec (o : op E) σ : wf σ → wf (exec o σ).
Proof.
  intros Hwf. destruct o as [s|a ms|a|s q ans].
  - simpl. rewrite get_by_session_id_resolve. by apply wf_resolve.
  - simpl. rewrite add_messages_extended. by apply wf_extended.
  - simpl. rewrite clear_cleared. by apply wf_cleared.
  - rewrite exec_invoke.
    destruct (messages_of _ _), ans;
      auto using wf_resolve, wf_extended.
Qed.

Lemma wf_execs (os : list (op E)) σ : wf σ → wf (execs os σ).
Proof.
  revert σ. induction os as [|o os IH]; intros σ Hwf; [done |].
  apply IH. by apply wf_exec.
Qed.

(** X1: every state the operations reach from the empty store is well
    formed. *)
Lemma wf_reachable (os : list (op E)) : wf (execs os init).
Proof. apply wf_execs, wf_init. Qed.

(** No operation removes or rebinds an entry of the store. *)
Lemma store_exec_mono (o : op E) s a σ :
  store σ !! s = Some a → store (exec o σ) !! s = Some a.
Proof.
  intros Hs. destruct o as [s'|a' ms|a'|s' q ans].
  - simpl. rewrite get_by_session_id_resolve. by apply store_resolve_mono.
  - simpl. by rewrite add_messages_extended, store_extended.
  - simpl. by rewrite clear_cleared, store_cleared.
  - rewrite exec_invoke.
    destruct (messages_of _ _), ans;
      rewrite ?store_extended; by apply store_resolve_mono.
Qed.

Lemma store_execs_mono (os : list (op E)) s a σ :
  store σ !! s = Some a → store (execs os σ) !! s = Some a.
Proof.
  revert σ. induction os as [|o os IH]; intros σ Hs; [done |].
  apply IH. by apply store_exec_mono.
Qed.

End RunnerLemmas.

(** ** Clearing and repeated appends *)

Section ClearAndAppend.
Implicit Types (σ : State) (s : string) (a l : addr).

Lemma history_cleared_other s s' a σ :
  wf σ → store σ !! s = Some a → s' ≠ s →
  history s' (cleared a σ) = history s' σ.
Proof.
  intros Hwf Hs Hne. unfold history. rewrite store_cleared.
  destruct (store σ !! s') as [a'|] eqn:Hs'; [| done].
  rewrite messages_of_cleared_other; [done | done | |].
  - intros ->. apply Hne. by eapply (wf_inj _ Hwf).
  - destruct (wf_store _ Hwf _ _ Hs') as [l Hl]. by exists (HistObj l).
Qed.

Lemma extended_extended a ms (new1 new2 : list BaseMessage) σ :
  messages_of a σ = Some ms →
  extended a new2 (extended a new1 σ) = extended a (new1 ++ new2) σ.
Proof.
  unfold messages_of, extended.
  destruct (heap σ !! a) as [[?|l]|] eqn:Ha; try done.
  destruct (heap σ !! l) as [[ms'|?]|] eqn:Hl; try done.
  intros _. simpl. assert (l ≠ a) by congruence.
  rewrite lookup_insert_ne, Ha by done. rewrite lookup_insert_eq.
  by rewrite insert_insert_eq, app_assoc.
Qed.

Lemma extended_nil a σ : extended a [] σ = σ.
Proof.
  unfold extended.
  destruct (heap σ !! a) as [[?|l]|] eqn:Ha; try done.
  destruct (heap σ !! l) as [[ms'|?]|] eqn:Hl; try done.
  rewrite app_nil_r, insert_id by done. by destruct σ.
Qed.

End ClearAndAppend.

(** * The session store *)

Section SessionStore.
Context {E : Type}.
Implicit Types (σ : State) (s : string) (a h : addr).
Implicit Types (ms new : list BaseMessage).

(** C1: the first call of [get_by_session_id] for an identifier creates a new
    history object with no messages, binds the identifier to it in the
    store and returns it; after any further operations a call for the same
    identifier returns the same object and changes nothing. *)
Theorem get_by_session_id_first_then_same s σ :
  store σ !! s = None →
  ∃ a σ1,
    get_by_session_id (E:=E) s σ = (Ok a, σ1)
    ∧ heap σ !! a = None
    ∧ messages_of a σ1 = Some []
    ∧ store σ1 = <[s := a]> (store σ)
    ∧ ∀ os : list (op E),
        get_by_session_id (E:=E) s (execs os σ1) = (Ok a, execs os σ1).
Proof.
  intros Hs. exists (created s σ).1, (created s σ).2.
  split; [by apply get_by_session_id_unseen |].
  split; [apply created_fresh |].
  split; [apply messages_of_created |].
  split; [done |].
  intros os. apply get_by_session_id_seen, store_execs_mono.
  simpl. apply lookup_insert_eq.
Qed.

(** C8: [get_by_session_id] never raises: on every well-formed state and
    for every string, the empty one included, it returns a history object
    that the store then holds for the identifier. *)
Theorem get_by_session_id_total s σ :
  wf σ →
  ∃ a σ' ms,
    get_by_session_id (E:=E) s σ = (Ok a, σ')
    ∧ store σ' !! s = Some a
    ∧ messages_of a σ' = Some ms.
Proof.
  intros Hwf. exists (resolve s σ).1, (resolve s σ).2, (history s σ).
  split; [apply get_by_session_id_resolve |].
  split; [apply store_resolve_same | by apply messages_of_resolve].
Qed.

(** C9: appending [xs] and then [ys] to a history leaves the same state as
    appending [xs ++ ys] once: the old messages followed by [xs] and [ys];
    appending the empty list changes nothing. *)
Theorem add_messages_app h ms (xs ys : list BaseMessage) σ :
  messages_of h σ = Some ms →
  ∃ σ1 σ2,
    add_messages (E:=E) h xs σ = (Ok tt, σ1)
    ∧ messages_of h σ1 = Some (ms ++ xs)
    ∧ add_messages (E:=E) h ys σ1 = (Ok tt, σ2)
    ∧ messages_of h σ2 = Some (ms ++ xs ++ ys)
    ∧ add_messages (E:=E) h (xs ++ ys) σ = (Ok tt, σ2)
    ∧ add_messages (E:=E) h [] σ = (Ok tt, σ).
Proof.
  intros Hm.
  pose proof (messages_of_extended_same h ms xs σ Hm) as Hm1.
  exists (extended h xs σ), (extended h ys (extended h xs σ)).
  split; [by eapply add_messages_ok |].
  split; [done |].
  split; [by eapply add_messages_ok |].
  split.
  { rewrite (messages_of_extended_same h _ ys _ Hm1). by rewrite app_assoc. }
  split.
  - rewrite (add_messages_ok h ms) by done.
    by rewrite (extended_extended h ms).
  - rewrite (add_messages_ok h ms) by done. by rewrite extended_nil.
Qed.

(** C10: clearing the history of a session leaves it without messages and
    leaves the store as it is: the identifier still resolves to the same
    object, and the messages of every other session are as before. *)
Theorem clear_frame s σ :
  wf σ →
  ∃ h σ1 σ2,
    get_by_session_id (E:=E) s σ = (Ok h, σ1)
    ∧ clear (E:=E) h σ1 = (Ok tt, σ2)
    ∧ messages_of h σ2 = Some []
    ∧ store σ2 = store σ1
    ∧ get_by_session_id (E:=E) s σ2 = (Ok h, σ2)
    ∧ ∀ s', s' ≠ s → history s' σ2 = history s' σ.
Proof.
  intros Hwf.
  pose proof (messages_of_resolve s σ Hwf) as Hm.
  pose proof (store_resolve_same s σ) as Hs.
  exists (resolve s σ).1, (resolve s σ).2, (cleared (resolve s σ).1 (resolve s σ).2).
  split; [apply get_by_session_id_resolve |].
  split; [by eapply clear_ok |].
  split; [by eapply messages_of_cleared_same |].
  split; [apply store_cleared |].
  split.
  - apply get_by_session_id_seen. by rewrite store_cleared.
  - intros s' Hne.
    rewrite (history_cleared_other s s' _ _ (wf_resolve s σ Hwf) Hs Hne).
    by apply history_resolve.
Qed.

(** C6: two different identifiers resolve to two different history objects,
    and appending to the first one's history leaves the messages of the
    second as they were. *)
Theorem histories_independent s1 s2 σ :
  wf σ → s1 ≠ s2 →
  ∃ a1 σ1 a2 σ2,
    get_by_session_id (E:=E) s1 σ = (Ok a1, σ1)
    ∧ get_by_session_id (E:=E) s2 σ1 = (Ok a2, σ2)
    ∧ a1 ≠ a2
    ∧ ∀ new, ∃ σ3,
        add_messages (E:=E) a1 new σ2 = (Ok tt, σ3)
        ∧ messages_of a1 σ3 = Some (history s1 σ2 ++ new)
        ∧ messages_of a2 σ3 = messages_of a2 σ2
        ∧ history s2 σ3 = history s2 σ2.
Proof.
  intros Hwf Hne.
  set (a1 := (resolve s1 σ).1). set (σ1 := (resolve s1 σ).2).
  set (a2 := (resolve s2 σ1).1). set (σ2 := (resolve s2 σ1).2).
  assert (wf σ1) as Hwf1 by by apply wf_resolve.
  assert (wf σ2) as Hwf2 by by apply wf_resolve.
  assert (store σ2 !! s1 = Some a1) as Hs1
    by apply store_resolve_mono, store_resolve_same.
  assert (store σ2 !! s2 = Some a2) as Hs2 by apply store_resolve_same.
  assert (a1 ≠ a2) as Hna.
  { intros Heq. apply Hne. rewrite <- Heq in Hs2. by eapply (wf_inj _ Hwf2). }
  destruct (wf_messages_of _ _ _ Hwf2 Hs1) as [ms1 Hm1].
  exists a1, σ1, a2, σ2.
  split; [apply get_by_session_id_resolve |].
  split; [apply get_by_session_id_resolve |].
  split; [done |].
  intros new. exists (extended a1 new σ2).
  split; [by eapply add_messages_ok |].
  split.
  { rewrite (history_seen s1 a1 ms1 σ2) by done.
    by apply messages_of_extended_same. }
  split.
  - apply messages_of_extended_other; [done | congruence].
  - by apply (history_extended_other s1).
Qed.

End SessionStore.

(** * The conversation runner *)

Section ConversationRunner.
Context {E W : Type}.
Variable llm : Client E W.
Implicit Types (σ : State) (s t : string) (w : W).

(** C3: on a well-formed state [conversation] sends exactly one request, the
    messages recorded for the session, in order, followed by one user
    message with the new text, and then finishes. *)
Theorem conversation_request s t σ :
  wf σ →
  (∃ k, conversation (E:=E) s t σ = Invoke (history s σ ++ [HumanMessage t]) k
        ∧ ∀ ans, ∃ r, k ans = Done r)
  ∧ ∀ answers,
      requests (conversation (E:=E) s t σ) answers
      = [history s σ ++ [HumanMessage t]].
Proof.
  intros Hwf. rewrite conversation_unfold by done. split.
  - eexists. split; [reflexivity |].
    intros [e|text]; simpl; by eexists.
  - intros answers. rewrite <- (conversation_unfold s t σ Hwf).
    by apply requests_conversation.
Qed.

(** C4: when the client answers the request of [conversation] with an error,
    the error is raised and the messages of the session, and of every
    other session, are those from before the call; a session the store
    already knew leaves the whole state as it was. *)
Theorem conversation_failure_keeps_history s t σ w e w' :
  wf σ →
  llm (history s σ ++ [HumanMessage t]) w = (inl e, w') →
  ∃ σ',
    run llm (conversation s t σ) w = ((Raise (ModelError e), σ'), w')
    ∧ history s σ' = history s σ
    ∧ length (history s σ') = length (history s σ)
    ∧ (∀ s', history s' σ' = history s' σ)
    ∧ (is_Some (store σ !! s) → σ' = σ).
Proof.
  intros Hwf Hllm. exists (resolve s σ).2.
  split; [by apply run_conversation_error |].
  split; [by apply history_resolve |].
  split; [by rewrite history_resolve |].
  split; [intros s'; by apply history_resolve |].
  intros [a Ha]. unfold resolve. by rewrite Ha.
Qed.

(** C5: the result of [conversation] is the answer of the client to its one
    request: the client's error, raised as it is, or the client's text;
    the world is the one the client left after that one call. *)
Theorem conversation_result s t σ w :
  wf σ →
  ∃ σ',
    run llm (conversation s t σ) w
    = ((match (llm (history s σ ++ [HumanMessage t]) w).1 with
        | inl e => Raise (ModelError e)
        | inr text => Ok text
        end, σ'),
       (llm (history s σ ++ [HumanMessage t]) w).2).
Proof.
  intros Hwf.
  destruct (llm (history s σ ++ [HumanMessage t]) w) as [[e|text] w'] eqn:Hllm.
  - eexists. by apply run_conversation_error.
  - eexists. by apply run_conversation_text.
Qed.

Lemma conversation_success s t text σ σ' w w' :
  wf σ →
  run llm (conversation s t σ) w = ((Ok text, σ'), w') →
  wf σ' ∧ history s σ' = history s σ ++ [HumanMessage t; AIMessage text].
Proof.
  intros Hwf Hrun.
  destruct (llm (history s σ ++ [HumanMessage t]) w) as [[e|text'] w''] eqn:Hllm.
  - rewrite (run_conversation_error llm s t σ w e w'') in Hrun by done. done.
  - rewrite (run_conversation_text llm s t σ w text' w'') in Hrun by done.
    injection Hrun as -> <- _. split.
    + by apply wf_extended, wf_resolve.
    + rewrite (history_extended_same s);
        [by rewrite history_resolve | by apply wf_resolve
        | apply store_resolve_same].
Qed.

(** C2: starting from a session without messages, after two successful
    calls of [conversation] the session holds exactly the four messages user Q1,
    assistant A1, user Q2, assistant A2, in this order. *)
Theorem conversation_twice s Q1 Q2 A1 A2 σ σ1 σ2 w w1 w2 :
  wf σ →
  history s σ = [] →
  run llm (conversation s Q1 σ) w = ((Ok A1, σ1), w1) →
  run llm (conversation s Q2 σ1) w1 = ((Ok A2, σ2), w2) →
  history s σ1 = [HumanMessage Q1; AIMessage A1]
  ∧ history s σ2
    = [HumanMessage Q1; AIMessage A1; HumanMessage Q2; AIMessage A2].
Proof.
  intros Hwf Hnew Hrun1 Hrun2.
  destruct (conversation_success _ _ _ _ _ _ _ Hwf Hrun1) as [Hwf1 H1].
  destruct (conversation_success _ _ _ _ _ _ _ Hwf1 Hrun2) as [_ H2].
  rewrite Hnew in H1. simpl in H1. split; [done |].
  by rewrite H2, H1.
Qed.

End ConversationRunner.

Section Isolation.
Context {E : Type}.
Implicit Types (σ : State) (s t : string).

(** C7: the requests [conversation] sends for a session are the same in any two
    well-formed states that record the same messages for that session,
    whatever they record for other sessions. *)
Theorem conversation_request_isolated s t σ1 σ2 (answers : list (E + string)) :
  wf σ1 → wf σ2 →
  history s σ1 = history s σ2 →
  requests (conversation (E:=E) s t σ1) answers
  = requests (conversation (E:=E) s t σ2) answers.
Proof.
  intros Hwf1 Hwf2 Heq.
  rewrite !requests_conversation by done. by rewrite Heq.
Qed.

End Isolation.

(** * The theorems at concrete inputs *)

(** The scenario of the spec: after the first two turns of session bar the
    request for the third question carries both turns, where the
    single-turn call carries the question alone. *)
Example bar_third_request :
  requests (conversation (E:=client_error) "bar"
              "What is the city's most famous landmark?" bar_run) []
  = [[HumanMessage "What is the capital of France?";
      AIMessage "Paris";
      HumanMessage "What is its population?";
      AIMessage "Around 2.1 million people.";
      HumanMessage "What is the city's most famous landmark?"]]
  ∧ requests (single_turn (E:=client_error)
                "What is the city's most famous landmark?") []
    = [[HumanMessage "What is the city's most famous landmark?"]].
Proof. split; vm_compute; reflexivity. Qed.

(** A failed turn registers the session and records no message. *)
Example failed_first_turn :
  let r := run scripted (conversation "new" "Q" turn1) [inl RateLimit] in
  r.1.1 = Raise (ModelError RateLimit)
  ∧ store turn1 !! "new" = None
  ∧ store r.1.2 !! "new" = Some 4%positive
  ∧ history "new" r.1.2 = []
  ∧ history "s1" r.1.2 = history "s1" turn1.
Proof. vm_compute. repeat split; reflexivity. Qed.

Lemma wf_turn1 : wf turn1.
Proof. apply wf_execs, wf_init. Qed.

Lemma wf_turn2 : wf turn2.
Proof. apply wf_execs, wf_turn1. Qed.

Lemma wf_turn3 : wf turn3.
Proof. apply wf_execs, wf_turn2. Qed.

Lemma get_by_session_id_first_then_same_witness :
  store turn1 !! "foo" = None
  ∧ ∃ a σ1,
      get_by_session_id (E:=client_error) "foo" turn1 = (Ok a, σ1)
      ∧ heap turn1 !! a = None
      ∧ messages_of a σ1 = Some []
      ∧ store σ1 = <["foo" := a]> (store turn1)
      ∧ ∀ os : list (op client_error),
          get_by_session_id (E:=client_error) "foo" (execs os σ1)
          = (Ok a, execs os σ1).
Proof.
  split; [reflexivity |].
  apply (get_by_session_id_first_then_same (E:=client_error) "foo" turn1).
  reflexivity.
Defined.

Lemma get_by_session_id_total_witness :
  wf turn1
  ∧ ∃ a σ' ms,
      get_by_session_id (E:=client_error) EmptyString turn1 = (Ok a, σ')
      ∧ store σ' !! EmptyString = Some a
      ∧ messages_of a σ' = Some ms.
Proof.
  split; [apply wf_turn1 |].
  apply (get_by_session_id_total (E:=client_error) EmptyString turn1 wf_turn1).
Defined.

Lemma add_messages_app_witness :
  messages_of 2%positive turn1 = Some [HumanMessage "Q1"; AIMessage "A1"]
  ∧ ∃ σ1 σ2,
      add_messages (E:=client_error) 2%positive [HumanMessage "x"] turn1
      = (Ok tt, σ1)
      ∧ messages_of 2%positive σ1
        = Some ([HumanMessage "Q1"; AIMessage "A1"] ++ [HumanMessage "x"])
      ∧ add_messages (E:=client_error) 2%positive [AIMessage "y"] σ1
        = (Ok tt, σ2)
      ∧ messages_of 2%positive σ2
        = Some ([HumanMessage "Q1"; AIMessage "A1"]
                ++ [HumanMessage "x"] ++ [AIMessage "y"])
      ∧ add_messages (E:=client_error) 2%positive
          ([HumanMessage "x"] ++ [AIMessage "y"]) turn1
        = (Ok tt, σ2)
      ∧ add_messages (E:=client_error) 2%positive [] turn1 = (Ok tt, turn1).
Proof.
  split; [reflexivity |].
  apply (add_messages_app (E:=client_error) 2%positive
           [HumanMessage "Q1"; AIMessage "A1"]
           [HumanMessage "x"] [AIMessage "y"] turn1).
  reflexivity.
Defined.

Lemma clear_frame_witness :
  wf turn3
  ∧ ∃ h σ1 σ2,
      get_by_session_id (E:=client_error) "s1" turn3 = (Ok h, σ1)
      ∧ clear (E:=client_error) h σ1 = (Ok tt, σ2)
      ∧ messages_of h σ2 = Some []
      ∧ store σ2 = store σ1
      ∧ get_by_session_id (E:=client_error) "s1" σ2 = (Ok h, σ2)
      ∧ ∀ s', s' ≠ "s1" → history s' σ2 = history s' turn3.
Proof.
  split; [apply wf_turn3 |].
  apply (clear_frame (E:=client_error) "s1" turn3 wf_turn3).
Defined.

Lemma histories_independent_witness :
  wf turn1 ∧ "s1" ≠ "bar"
  ∧ ∃ a1 σ1 a2 σ2,
      get_by_session_id (E:=client_error) "s1" turn1 = (Ok a1, σ1)
      ∧ get_by_session_id (E:=client_error) "bar" σ1 = (Ok a2, σ2)
      ∧ a1 ≠ a2
      ∧ ∀ new, ∃ σ3,
          add_messages (E:=client_error) a1 new σ2 = (Ok tt, σ3)
          ∧ messages_of a1 σ3 = Some (history "s1" σ2 ++ new)
          ∧ messages_of a2 σ3 = messages_of a2 σ2
          ∧ history "bar" σ3 = history "bar" σ2.
Proof.
  split; [apply wf_turn1 |]. split; [discriminate |].
  apply (histories_independent (E:=client_error) "s1" "bar" turn1 wf_turn1).
  discriminate.
Defined.

Lemma conversation_request_witness :
  wf turn1
  ∧ (∃ k, conversation (E:=client_error) "s1" "Q2" turn1
          = Invoke (history "s1" turn1 ++ [HumanMessage "Q2"]) k
          ∧ ∀ ans, ∃ r, k ans = Done r)
  ∧ ∀ answers,
      requests (conversation (E:=client_error) "s1" "Q2" turn1) answers
      = [history "s1" turn1 ++ [HumanMessage "Q2"]].
Proof.
  split; [apply wf_turn1 |].
  apply (conversation_request (E:=client_error) "s1" "Q2" turn1 wf_turn1).
Defined.

Lemma conversation_failure_keeps_history_witness :
  wf turn1
  ∧ scripted (history "s1" turn1 ++ [HumanMessage "Q2"]) [inl RateLimit]
    = (inl RateLimit, [])
  ∧ ∃ σ',
      run scripted (conversation "s1" "Q2" turn1) [inl RateLimit]
      = ((Raise (ModelError RateLimit), σ'), [])
      ∧ history "s1" σ' = history "s1" turn1
      ∧ length (history "s1" σ') = length (history "s1" turn1)
      ∧ (∀ s', history s' σ' = history s' turn1)
      ∧ (is_Some (store turn1 !! "s1") → σ' = turn1).
Proof.
  split; [apply wf_turn1 |]. split; [reflexivity |].
  apply (conversation_failure_keeps_history scripted "s1" "Q2" turn1
           [inl RateLimit] RateLimit [] wf_turn1).
  reflexivity.
Defined.

Lemma conversation_result_witness :
  wf turn1
  ∧ ∃ σ',
      run scripted (conversation "s1" "Q2" turn1) [inr "A2"]
      = ((match (scripted (history "s1" turn1 ++ [HumanMessage "Q2"])
                   [inr "A2"]).1 with
          | inl e => Raise (ModelError e)
          | inr text => Ok text
          end, σ'),
         (scripted (history "s1" turn1 ++ [HumanMessage "Q2"]) [inr "A2"]).2).
Proof.
  split; [apply wf_turn1 |].
  apply (conversation_result scripted "s1" "Q2" turn1 [inr "A2"] wf_turn1).
Defined.

Lemma conversation_twice_witness :
  wf init
  ∧ history "s1" init = []
  ∧ run scripted (conversation "s1" "Q1" init) [inr "A1"; inr "A2"]
    = ((Ok "A1", turn1), [inr "A2"])
  ∧ run scripted (conversation "s1" "Q2" turn1) [inr "A2"]
    = ((Ok "A2", turn2), [])
  ∧ history "s1" turn1 = [HumanMessage "Q1"; AIMessage "A1"]
  ∧ history "s1" turn2
    = [HumanMessage "Q1"; AIMessage "A1"; HumanMessage "Q2"; AIMessage "A2"].
Proof.
  split; [apply wf_init |]. split; [reflexivity |].
  split; [vm_compute; reflexivity |]. split; [vm_compute; reflexivity |].
  apply (conversation_twice scripted "s1" "Q1" "Q2" "A1" "A2" init turn1 turn2
           [inr "A1"; inr "A2"] [inr "A2"] [] wf_init);
    vm_compute; reflexivity.
Defined.

Lemma conversation_request_isolated_witness :
  wf turn2 ∧ wf turn3
  ∧ history "s1" turn2 = history "s1" turn3
  ∧ history "bar" turn2 ≠ history "bar" turn3
  ∧ requests (conversation (E:=client_error) "s1" "Q3" turn2) [inr "A3"]
    = requests (conversation (E:=client_error) "s1" "Q3" turn3) [inr "A3"].
Proof.
  split; [apply wf_turn2 |]. split; [apply wf_turn3 |].
  split; [vm_compute; reflexivity |]. split; [vm_compute; discriminate |].
  apply (conversation_request_isolated (E:=client_error) "s1" "Q3" turn2 turn3
           [inr "A3"] wf_turn2 wf_turn3).
  vm_compute; reflexivity.
Defined.

(** * More on the session store *)

Section StoreFrame.
Context {E : Type}.
Implicit Types (σ : State) (s : string) (a h l : addr).
Implicit Types (ms new : list BaseMessage).

Lemma store_resolve_subseteq s σ : store σ ⊆ store (resolve s σ).2.
Proof.
  unfold resolve. destruct (store σ !! s) eqn:Hs; [done |].
  simpl. by apply insert_subseteq.
Qed.

Lemma heap_resolve_subseteq s σ : heap σ ⊆ heap (resolve s σ).2.
Proof.
  unfold resolve. destruct (store σ !! s) eqn:Hs; [done |].
  apply heap_created_subseteq.
Qed.

Lemma dom_store_resolve s σ :
  dom (store (resolve s σ).2) = {[s]} ∪ dom (store σ).
Proof.
  unfold resolve. destruct (store σ !! s) as [a|] eqn:Hs.
  - simpl. symmetry. apply subseteq_union_1_L, singleton_subseteq_l.
    apply elem_of_dom. eauto.
  - simpl. apply dom_insert_L.
Qed.

Lemma get_messages_ref_hist h l σ :
  heap σ !! h = Some (HistObj l) → get_messages_ref (E:=E) h σ = (Ok l, σ).
Proof.
  intros Hh. unfold get_messages_ref, mbind, M_bind, get_heap. simpl.
  by rewrite Hh.
Qed.

Lemma list_items_list l ms σ :
  heap σ !! l = Some (ListObj ms) → list_items (E:=E) l σ = (Ok ms, σ).
Proof.
  intros Hl. unfold list_items, mbind, M_bind, get_heap. simpl.
  by rewrite Hl.
Qed.

Lemma messages_of_inv h ms σ :
  messages_of h σ = Some ms →
  ∃ l, heap σ !! h = Some (HistObj l) ∧ heap σ !! l = Some (ListObj ms).
Proof.
  unfold messages_of.
  destruct (heap σ !! h) as [[?|l]|] eqn:Hh; try done.
  destruct (heap σ !! l) as [[ms'|?]|] eqn:Hl; try done.
  intros [= <-]. eauto.
Qed.

(** X2: [get_by_session_id] leaves what is there: the messages of every
    session, every entry of the store and every object are as before, and
    the store has the identifier asked for and no other new one. *)
Theorem get_by_session_id_frame s σ :
  wf σ →
  ∃ a σ',
    get_by_session_id (E:=E) s σ = (Ok a, σ')
    ∧ (∀ s', history s' σ' = history s' σ)
    ∧ store σ ⊆ store σ'
    ∧ heap σ ⊆ heap σ'
    ∧ dom (store σ') = {[s]} ∪ dom (store σ).
Proof.
  intros Hwf. exists (resolve s σ).1, (resolve s σ).2.
  split; [apply get_by_session_id_resolve |].
  split; [intros s'; by apply history_resolve |].
  split; [apply store_resolve_subseteq |].
  split; [apply heap_resolve_subseteq | apply dom_store_resolve].
Qed.

(** X3: calling [get_by_session_id] twice in a row is the same as calling it
    once, in every state: the second call returns the object of the first
    and changes nothing. *)
Theorem get_by_session_id_idempotent s σ :
  (get_by_session_id s;; get_by_session_id s) σ
  = get_by_session_id (E:=E) s σ.
Proof.
  unfold mbind at 1. unfold M_bind at 1.
  rewrite get_by_session_id_resolve.
  apply get_by_session_id_seen, store_resolve_same.
Qed.

(** X5: [add_messages] works in place: the history keeps its list object, the
    items of that object grow by the new messages, no object is allocated
    and no other object and no entry of the store changes. *)
Theorem add_messages_in_place h ms new σ :
  messages_of h σ = Some ms →
  ∃ l σ',
    get_messages_ref (E:=E) h σ = (Ok l, σ)
    ∧ add_messages (E:=E) h new σ = (Ok tt, σ')
    ∧ get_messages_ref (E:=E) h σ' = (Ok l, σ')
    ∧ list_items (E:=E) l σ' = (Ok (ms ++ new), σ')
    ∧ dom (heap σ') = dom (heap σ)
    ∧ store σ' = store σ
    ∧ ∀ a, a ≠ l → heap σ' !! a = heap σ !! a.
Proof.
  intros Hm. destruct (messages_of_inv _ _ _ Hm) as (l & Hh & Hl).
  assert (h ≠ l) as Hne by congruence.
  exists l, (mkState (<[l := ListObj (ms ++ new)]> (heap σ)) (store σ)).
  split; [by apply get_messages_ref_hist |].
  split; [by apply add_messages_hist |].
  split; [apply get_messages_ref_hist; simpl; by rewrite lookup_insert_ne |].
  split; [apply list_items_list; simpl; by rewrite lookup_insert_eq |].
  split.
  { simpl. rewrite dom_insert_L.
    apply subseteq_union_1_L, singleton_subseteq_l, elem_of_dom. eauto. }
  split; [done |].
  intros a Ha. simpl. by rewrite lookup_insert_ne.
Qed.

(** X6: [clear] binds the field to a new list and does not empty the old one:
    the history then refers to a list object that did not exist before,
    with no items, and the list object it referred to still has all its
    items. *)
Theorem clear_keeps_old_list h ms σ :
  messages_of h σ = Some ms →
  ∃ l l' σ',
    get_messages_ref (E:=E) h σ = (Ok l, σ)
    ∧ clear (E:=E) h σ = (Ok tt, σ')
    ∧ get_messages_ref (E:=E) h σ' = (Ok l', σ')
    ∧ heap σ !! l' = None
    ∧ l' ≠ l
    ∧ list_items (E:=E) l σ' = (Ok ms, σ')
    ∧ list_items (E:=E) l' σ' = (Ok [], σ').
Proof.
  intros Hm. destruct (messages_of_inv _ _ _ Hm) as (l & Hh & Hl).
  pose proof (fresh_heap_None (heap σ)) as Hf.
  set (l' := fresh (dom (heap σ))) in *.
  assert (l' ≠ l) as Hne by congruence.
  assert (h ≠ l') as Hne' by congruence.
  assert (h ≠ l) as Hne'' by congruence.
  exists l, l',
    (mkState (<[h := HistObj l']> (<[l' := ListObj []]> (heap σ))) (store σ)).
  split; [by apply get_messages_ref_hist |].
  split; [by rewrite (clear_hist h l) |].
  split; [apply get_messages_ref_hist; simpl; by rewrite lookup_insert_eq |].
  split; [done |]. split; [done |].
  split; apply list_items_list; simpl.
  - by rewrite !lookup_insert_ne.
  - rewrite lookup_insert_ne by done. by rewrite lookup_insert_eq.
Qed.

(** X7: after [clear], [add_messages] starts the history anew: it holds the
    new messages and none of the old ones. *)
Theorem clear_then_add_messages h ms new σ :
  messages_of h σ = Some ms →
  ∃ σ1 σ2,
    clear (E:=E) h σ = (Ok tt, σ1)
    ∧ add_messages (E:=E) h new σ1 = (Ok tt, σ2)
    ∧ messages_of h σ2 = Some new
    ∧ store σ2 = store σ.
Proof.
  intros Hm.
  pose proof (messages_of_cleared_same h ms σ Hm) as Hm1.
  exists (cleared h σ), (extended h new (cleared h σ)).
  split; [by eapply clear_ok |].
  split; [by eapply add_messages_ok |].
  split; [by apply (messages_of_extended_same h [] new) |].
  by rewrite store_extended, store_cleared.
Qed.

Lemma dom_store_exec (o : op E) σ :
  dom (store (exec o σ))
  = dom (store σ) ∪ list_to_set (option_list (session_of o)).
Proof.
  destruct o as [s|a ms|a|s q ans]; simpl.
  - rewrite get_by_session_id_resolve. simpl. rewrite dom_store_resolve.
    by rewrite union_empty_r_L, (comm_L (∪)).
  - by rewrite add_messages_extended, store_extended, union_empty_r_L.
  - by rewrite clear_cleared, store_cleared, union_empty_r_L.
  - change (dom (store (exec (Op_invoke s q ans) σ))
            = dom (store σ) ∪ ({[s]} ∪ ∅)).
    rewrite exec_invoke, union_empty_r_L, (comm_L (∪)).
    destruct (messages_of _ _), ans;
      by rewrite ?store_extended, dom_store_resolve.
Qed.

(** X4: the store holds the identifiers that were handed to
    [get_by_session_id], by a caller or by a turn of the runner, and those
    it held before: no operation removes one or adds another. *)
Theorem store_dom_execs (os : list (op E)) σ :
  dom (store (execs os σ))
  = dom (store σ) ∪ list_to_set (omap session_of os).
Proof.
  revert σ. induction os as [|o os IH]; intros σ.
  - simpl. by rewrite union_empty_r_L.
  - change (execs (o :: os) σ) with (execs os (exec o σ)).
    rewrite IH, dom_store_exec.
    destruct (session_of o) as [s|] eqn:Ho; simpl; rewrite Ho; simpl.
    + by rewrite union_empty_r_L, (assoc_L (∪)).
    + by rewrite union_empty_r_L.
Qed.

End StoreFrame.

(** * More on the conversation runner *)

Section Turns.
Context {E : Type}.
Implicit Types (σ : State) (s q text : string) (ans : E + string).

Lemma wf_turn_state s q text σ : wf σ → wf (turn_state s q text σ).
Proof. intros Hwf. by apply wf_extended, wf_resolve. Qed.

Lemma history_turn_state_same s q text σ :
  wf σ →
  history s (turn_state s q text σ)
  = history s σ ++ [HumanMessage q; AIMessage text].
Proof.
  intros Hwf. unfold turn_state.
  rewrite (history_extended_same s);
    [by rewrite history_resolve | by apply wf_resolve
    | apply store_resolve_same].
Qed.

Lemma history_turn_state_other s s' q text σ :
  wf σ → s' ≠ s → history s' (turn_state s q text σ) = history s' σ.
Proof.
  intros Hwf Hne. unfold turn_state.
  rewrite (history_extended_other s);
    [by apply history_resolve | by apply wf_resolve
    | apply store_resolve_same | done].
Qed.

Lemma dom_store_turn_state s q text σ :
  dom (store (turn_state s q text σ)) = {[s]} ∪ dom (store σ).
Proof. unfold turn_state. by rewrite store_extended, dom_store_resolve. Qed.

Lemma exec_invoke_wf s q ans σ :
  wf σ →
  exec (Op_invoke s q ans) σ
  = match ans with
    | inl _ => (resolve s σ).2
    | inr text => turn_state s q text σ
    end.
Proof.
  intros Hwf. rewrite exec_invoke.
  by rewrite (messages_of_resolve s σ Hwf).
Qed.

Lemma history_exec_invoke s s' q ans σ :
  wf σ →
  history s' (exec (Op_invoke s q ans) σ)
  = history s' σ ++ (if decide (s' = s) then turn_messages q ans else []).
Proof.
  intros Hwf. rewrite exec_invoke_wf by done.
  destruct ans as [e|text]; simpl.
  - rewrite history_resolve by done. case_decide; by rewrite app_nil_r.
  - case_decide as Hd.
    + subst s'. by apply history_turn_state_same.
    + rewrite app_nil_r. by apply history_turn_state_other.
Qed.

(** X8: a successful turn of a session adds the user message and the
    assistant message to that session and changes the messages of no other
    session; the store gains at most the session's identifier. *)
Theorem conversation_turn_frame {W} (llm : Client E W) s q text σ w w' :
  wf σ →
  llm (history s σ ++ [HumanMessage q]) w = (inr text, w') →
  ∃ σ',
    run llm (conversation s q σ) w = ((Ok text, σ'), w')
    ∧ wf σ'
    ∧ history s σ' = history s σ ++ [HumanMessage q; AIMessage text]
    ∧ (∀ s', s' ≠ s → history s' σ' = history s' σ)
    ∧ dom (store σ') = {[s]} ∪ dom (store σ).
Proof.
  intros Hwf Hllm. exists (turn_state s q text σ).
  split; [by apply run_conversation_text |].
  split; [by apply wf_turn_state |].
  split; [by apply history_turn_state_same |].
  split; [intros s' Hne; by apply history_turn_state_other |].
  apply dom_store_turn_state.
Qed.

(** X9: turns of two different sessions can be swapped: each turn sends the
    same request in either order, and every session ends with the same
    messages. *)
Theorem conversation_turns_commute s1 s2 q1 q2 (ans1 ans2 : E + string) σ :
  wf σ → s1 ≠ s2 →
  (∀ answers,
     requests (conversation (E:=E) s2 q2 (exec (Op_invoke s1 q1 ans1) σ))
       answers
     = requests (conversation (E:=E) s2 q2 σ) answers)
  ∧ (∀ answers,
       requests (conversation (E:=E) s1 q1 (exec (Op_invoke s2 q2 ans2) σ))
         answers
       = requests (conversation (E:=E) s1 q1 σ) answers)
  ∧ ∀ s,
      history s (execs [Op_invoke s1 q1 ans1; Op_invoke s2 q2 ans2] σ)
      = history s (execs [Op_invoke s2 q2 ans2; Op_invoke s1 q1 ans1] σ).
Proof.
  intros Hwf Hne.
  assert (wf (exec (Op_invoke s1 q1 ans1) σ)) as Hwf1 by by apply wf_exec.
  assert (wf (exec (Op_invoke s2 q2 ans2) σ)) as Hwf2 by by apply wf_exec.
  split; [| split].
  - intros answers. rewrite !requests_conversation by done.
    rewrite history_exec_invoke by done.
    rewrite decide_False by congruence. by rewrite app_nil_r.
  - intros answers. rewrite !requests_conversation by done.
    rewrite history_exec_invoke by done.
    rewrite decide_False by done. by rewrite app_nil_r.
  - intros s. unfold execs. cbn [foldl].
    rewrite !history_exec_invoke by done.
    repeat case_decide; subst; try done; by rewrite ?app_nil_r.
Qed.

End Turns.

(** * The loops of the last cell *)

Section Loops.
Context {E : Type}.
Implicit Types (σ : State) (s p : string) (out : list string).
Implicit Types (prompts answers : list string) (more : list (E + string)).

Lemma replay_multi_turn_ok s p prompts out σ text more :
  wf σ →
  replay (multi_turn_loop (E:=E) s (p :: prompts) out σ) (inr text :: more)
  = replay (multi_turn_loop s prompts ((out ++ [Q_line p]) ++ [A_line text])
              (turn_state s p text σ)) more.
Proof.
  intros Hwf. cbn [multi_turn_loop].
  rewrite conversation_unfold by done. cbn [pbind replay].
  by rewrite (record_turn_ok _ _ _ _ _ (messages_of_resolve s σ Hwf)).
Qed.

Lemma requests_multi_turn_ok s p prompts out σ text more :
  wf σ →
  requests (multi_turn_loop (E:=E) s (p :: prompts) out σ) (inr text :: more)
  = (history s σ ++ [HumanMessage p])
    :: requests (multi_turn_loop s prompts
                   ((out ++ [Q_line p]) ++ [A_line text])
                   (turn_state s p text σ)) more.
Proof.
  intros Hwf. cbn [multi_turn_loop].
  rewrite conversation_unfold by done. cbn [pbind requests].
  by rewrite (record_turn_ok _ _ _ _ _ (messages_of_resolve s σ Hwf)).
Qed.

Lemma replay_multi_turn_error s p prompts out σ e more :
  wf σ →
  replay (multi_turn_loop (E:=E) s (p :: prompts) out σ) (inl e :: more)
  = Some ((Raise (ModelError e), (resolve s σ).2, out ++ [Q_line p]), more).
Proof.
  intros Hwf. cbn [multi_turn_loop].
  by rewrite conversation_unfold by done.
Qed.

Lemma requests_multi_turn_error s p prompts out σ e more :
  wf σ →
  requests (multi_turn_loop (E:=E) s (p :: prompts) out σ) (inl e :: more)
  = [history s σ ++ [HumanMessage p]].
Proof.
  intros Hwf. cbn [multi_turn_loop].
  by rewrite conversation_unfold by done.
Qed.

(** X10: when the client answers every prompt, the multi-turn loop ends
    normally, has sent one request per prompt, each with all the turns
    before it, has printed a question line and an answer line per prompt,
    and has added the turns, in order, to the session and to no other. *)
Theorem multi_turn_loop_all_success s prompts answers more out σ :
  wf σ →
  length answers = length prompts →
  ∃ σ',
    replay (multi_turn_loop (E:=E) s prompts out σ) (map inr answers ++ more)
    = Some ((Ok tt, σ', out ++ transcript prompts answers), more)
    ∧ requests (multi_turn_loop (E:=E) s prompts out σ)
        (map inr answers ++ more)
      = turn_requests (history s σ) prompts answers
    ∧ wf σ'
    ∧ history s σ' = history s σ ++ turns prompts answers
    ∧ ∀ s', s' ≠ s → history s' σ' = history s' σ.
Proof.
  revert answers out σ.
  induction prompts as [|p prompts IH]; intros [|text answers] out σ Hwf Hlen;
    try discriminate.
  - exists σ. simpl. by rewrite !app_nil_r.
  - injection Hlen as Hlen.
    destruct (IH answers ((out ++ [Q_line p]) ++ [A_line text])
                 (turn_state s p text σ) (wf_turn_state s p text σ Hwf) Hlen)
      as (σ' & Hrep & Hreq & Hwf' & Hs & Ho).
    exists σ'. cbn [map app].
    rewrite replay_multi_turn_ok, requests_multi_turn_ok by done.
    rewrite Hrep, Hreq, Hs, history_turn_state_same by done.
    cbn [transcript turns turn_requests].
    rewrite <- !app_assoc. do 4 (split; [done |]).
    intros s' Hne. rewrite Ho by done. by apply history_turn_state_other.
Qed.

(** X11: when the client fails on a prompt, the multi-turn loop ends there with
    that error: it has printed the question line of the failed prompt and
    no answer line for it, it sends no request for the prompts after it,
    and the session holds the turns before it and nothing of the failed
    one. *)
Theorem multi_turn_loop_abort s prompts p rest answers e more out σ :
  wf σ →
  length answers = length prompts →
  ∃ σ',
    replay (multi_turn_loop (E:=E) s (prompts ++ p :: rest) out σ)
      (map inr answers ++ inl e :: more)
    = Some ((Raise (ModelError e), σ',
             out ++ transcript prompts answers ++ [Q_line p]), more)
    ∧ requests (multi_turn_loop (E:=E) s (prompts ++ p :: rest) out σ)
        (map inr answers ++ inl e :: more)
      = turn_requests (history s σ) prompts answers
        ++ [history s σ ++ turns prompts answers ++ [HumanMessage p]]
    ∧ wf σ'
    ∧ history s σ' = history s σ ++ turns prompts answers
    ∧ ∀ s', s' ≠ s → history s' σ' = history s' σ.
Proof.
  revert answers out σ.
  induction prompts as [|p0 prompts IH]; intros [|text answers] out σ Hwf Hlen;
    try discriminate.
  - exists (resolve s σ).2. cbn [map app transcript turns turn_requests].
    rewrite replay_multi_turn_error, requests_multi_turn_error by done.
    rewrite !app_nil_r.
    do 2 (split; [done |]).
    split; [by apply wf_resolve |]. split; [by apply history_resolve |].
    intros s' _. by apply history_resolve.
  - injection Hlen as Hlen.
    destruct (IH answers ((out ++ [Q_line p0]) ++ [A_line text])
                 (turn_state s p0 text σ) (wf_turn_state s p0 text σ Hwf) Hlen)
      as (σ' & Hrep & Hreq & Hwf' & Hs & Ho).
    exists σ'. cbn [map app].
    rewrite replay_multi_turn_ok, requests_multi_turn_ok by done.
    rewrite Hrep, Hreq, Hs, history_turn_state_same by done.
    cbn [transcript turns turn_requests].
    rewrite <- !app_assoc. do 4 (split; [done |]).
    intros s' Hne. rewrite Ho by done. by apply history_turn_state_other.
Qed.

(** X12: the single-turn loop carries nothing over: when the client answers
    every prompt, each request is the prompt alone, as one user message,
    whatever was asked and answered before, and the loop prints a question
    line and an answer line per prompt. *)
Theorem single_turn_loop_all_success prompts answers more out :
  length answers = length prompts →
  replay (single_turn_loop (E:=E) prompts out) (map inr answers ++ more)
  = Some ((Ok tt, out ++ transcript prompts answers), more)
  ∧ requests (single_turn_loop (E:=E) prompts out) (map inr answers ++ more)
    = map (λ p, [HumanMessage p]) prompts.
Proof.
  revert answers out.
  induction prompts as [|p prompts IH]; intros [|text answers] out Hlen;
    try discriminate.
  - simpl. by rewrite app_nil_r.
  - injection Hlen as Hlen.
    destruct (IH answers ((out ++ [Q_line p]) ++ [A_line text]) Hlen)
      as [Hrep Hreq].
    cbn [map app single_turn_loop single_turn pbind replay requests transcript].
    rewrite Hrep, Hreq, <- !app_assoc. done.
Qed.

(** X13: when the client fails on a prompt, the single-turn loop ends there
    with that error, after the question line of that prompt, and sends no
    request for the prompts after it. *)
Theorem single_turn_loop_abort prompts p rest answers e more out :
  length answers = length prompts →
  replay (single_turn_loop (E:=E) (prompts ++ p :: rest) out)
    (map inr answers ++ inl e :: more)
  = Some ((Raise (ModelError e),
           out ++ transcript prompts answers ++ [Q_line p]), more)
  ∧ requests (single_turn_loop (E:=E) (prompts ++ p :: rest) out)
      (map inr answers ++ inl e :: more)
    = map (λ p, [HumanMessage p]) (prompts ++ [p]).
Proof.
  revert answers out.
  induction prompts as [|p0 prompts IH]; intros [|text answers] out Hlen;
    try discriminate.
  - done.
  - injection Hlen as Hlen.
    destruct (IH answers ((out ++ [Q_line p0]) ++ [A_line text]) Hlen)
      as [Hrep Hreq].
    cbn [map app single_turn_loop single_turn pbind replay requests transcript].
    cbn [map app] in Hreq.
    rewrite Hrep, Hreq, <- !app_assoc. done.
Qed.

End Loops.

(** * The structured prompt *)

Section StructuredPrompt.
Context {E : Type}.

Lemma list_ascii_of_string_append (s1 s2 : string) :
  String.list_ascii_of_string (String.append s1 s2)
  = String.list_ascii_of_string s1 ++ String.list_ascii_of_string s2.
Proof. induction s1 as [|c s1 IH]; simpl; [done | by rewrite IH]. Qed.

Lemma append_inj_r (s1 s2 t : string) :
  String.append s1 t = String.append s2 t → s1 = s2.
Proof.
  intros Heq. apply (f_equal String.list_ascii_of_string) in Heq.
  rewrite !list_ascii_of_string_append in Heq.
  apply app_inv_tail in Heq.
  rewrite <- (String.string_of_list_ascii_of_string s1).
  rewrite <- (String.string_of_list_ascii_of_string s2).
  by rewrite Heq.
Qed.

(** X14: the structured chain sends one user message, and two topics that give
    the same request are the same topic: the text around the topic never
    hides a difference. *)
Theorem structured_chain_inj (topic1 topic2 : string)
    (answers : list (E + string)) :
  requests (structured_chain (E:=E) topic1) answers
  = requests (structured_chain (E:=E) topic2) answers →
  topic1 = topic2
  ∧ requests (structured_chain (E:=E) topic1) answers
    = [[HumanMessage (structured_prompt topic1)]].
Proof.
  intros Heq. split; [| by destruct answers].
  assert (structured_prompt topic1 = structured_prompt topic2) as Hp
    by (destruct answers; simpl in Heq; congruence).
  unfold structured_prompt in Hp.
  apply (inj (String.append _)) in Hp. by apply append_inj_r in Hp.
Qed.

End StructuredPrompt.

(** * Replaying and running *)

(** Replaying a list of answers is running against the scripted client. *)
Lemma run_scripted_replay {A} (p : Prog client_error A) answers a rest :
  replay p answers = Some (a, rest) → run scripted p answers = (a, rest).
Proof.
  revert answers. induction p as [x|request k IH]; intros answers; simpl.
  - by intros [= <- <-].
  - destruct answers as [|ans answers]; [done |]. apply IH.
Qed.

(** * The further theorems at concrete inputs *)

Lemma get_by_session_id_frame_witness :
  wf turn1
  ∧ ∃ a σ',
      get_by_session_id (E:=client_error) "bar" turn1 = (Ok a, σ')
      ∧ (∀ s', history s' σ' = history s' turn1)
      ∧ store turn1 ⊆ store σ'
      ∧ heap turn1 ⊆ heap σ'
      ∧ dom (store σ') = {["bar"]} ∪ dom (store turn1).
Proof.
  split; [apply wf_turn1 |].
  apply (get_by_session_id_frame (E:=client_error) "bar" turn1 wf_turn1).
Defined.

Lemma add_messages_in_place_witness :
  messages_of 2%positive turn1 = Some [HumanMessage "Q1"; AIMessage "A1"]
  ∧ ∃ l σ',
      get_messages_ref (E:=client_error) 2%positive turn1 = (Ok l, turn1)
      ∧ add_messages (E:=client_error) 2%positive [HumanMessage "x"] turn1
        = (Ok tt, σ')
      ∧ get_messages_ref (E:=client_error) 2%positive σ' = (Ok l, σ')
      ∧ list_items (E:=client_error) l σ'
        = (Ok ([HumanMessage "Q1"; AIMessage "A1"] ++ [HumanMessage "x"]), σ')
      ∧ dom (heap σ') = dom (heap turn1)
      ∧ store σ' = store turn1
      ∧ ∀ a, a ≠ l → heap σ' !! a = heap turn1 !! a.
Proof.
  split; [reflexivity |].
  apply (add_messages_in_place (E:=client_error) 2%positive
           [HumanMessage "Q1"; AIMessage "A1"] [HumanMessage "x"] turn1).
  reflexivity.
Defined.

Lemma clear_keeps_old_list_witness :
  messages_of 2%positive turn1 = Some [HumanMessage "Q1"; AIMessage "A1"]
  ∧ ∃ l l' σ',
      get_messages_ref (E:=client_error) 2%positive turn1 = (Ok l, turn1)
      ∧ clear (E:=client_error) 2%positive turn1 = (Ok tt, σ')
      ∧ get_messages_ref (E:=client_error) 2%positive σ' = (Ok l', σ')
      ∧ heap turn1 !! l' = None
      ∧ l' ≠ l
      ∧ list_items (E:=client_error) l σ'
        = (Ok [HumanMessage "Q1"; AIMessage "A1"], σ')
      ∧ list_items (E:=client_error) l' σ' = (Ok [], σ').
Proof.
  split; [reflexivity |].
  apply (clear_keeps_old_list (E:=client_error) 2%positive
           [HumanMessage "Q1"; AIMessage "A1"] turn1).
  reflexivity.
Defined.

Lemma clear_then_add_messages_witness :
  messages_of 2%positive turn1 = Some [HumanMessage "Q1"; AIMessage "A1"]
  ∧ ∃ σ1 σ2,
      clear (E:=client_error) 2%positive turn1 = (Ok tt, σ1)
      ∧ add_messages (E:=client_error) 2%positive [HumanMessage "x"] σ1
        = (Ok tt, σ2)
      ∧ messages_of 2%positive σ2 = Some [HumanMessage "x"]
      ∧ store σ2 = store turn1.
Proof.
  split; [reflexivity |].
  apply (clear_then_add_messages (E:=client_error) 2%positive
           [HumanMessage "Q1"; AIMessage "A1"] [HumanMessage "x"] turn1).
  reflexivity.
Defined.

Lemma conversation_turn_frame_witness :
  wf turn1
  ∧ scripted (history "s1" turn1 ++ [HumanMessage "Q2"]) [inr "A2"]
    = (inr "A2", [])
  ∧ ∃ σ',
      run scripted (conversation "s1" "Q2" turn1) [inr "A2"]
      = ((Ok "A2", σ'), [])
      ∧ wf σ'
      ∧ history "s1" σ'
        = history "s1" turn1 ++ [HumanMessage "Q2"; AIMessage "A2"]
      ∧ (∀ s', s' ≠ "s1" → history s' σ' = history s' turn1)
      ∧ dom (store σ') = {["s1"]} ∪ dom (store turn1).
Proof.
  split; [apply wf_turn1 |]. split; [reflexivity |].
  apply (conversation_turn_frame scripted "s1" "Q2" "A2" turn1
           [inr "A2"] [] wf_turn1).
  reflexivity.
Defined.

Lemma conversation_turns_commute_witness :
  wf turn1 ∧ "s1" ≠ "bar"
  ∧ (∀ answers,
       requests (conversation (E:=client_error) "bar" "Q0"
                   (exec (Op_invoke (E:=client_error) "s1" "Q2" (inr "A2"))
                      turn1)) answers
       = requests (conversation (E:=client_error) "bar" "Q0" turn1) answers)
  ∧ (∀ answers,
       requests (conversation (E:=client_error) "s1" "Q2"
                   (exec (Op_invoke "bar" "Q0" (inl RateLimit)) turn1)) answers
       = requests (conversation (E:=client_error) "s1" "Q2" turn1) answers)
  ∧ ∀ s,
      history s (execs [Op_invoke (E:=client_error) "s1" "Q2" (inr "A2");
                        Op_invoke "bar" "Q0" (inl RateLimit)] turn1)
      = history s (execs [Op_invoke "bar" "Q0" (inl RateLimit);
                          Op_invoke "s1" "Q2" (inr "A2")] turn1).
Proof.
  split; [apply wf_turn1 |]. split; [discriminate |].
  apply (conversation_turns_commute (E:=client_error) "s1" "bar" "Q2" "Q0"
           (inr "A2") (inl RateLimit) turn1 wf_turn1).
  discriminate.
Defined.

Lemma multi_turn_loop_all_success_witness :
  wf turn1
  ∧ length ["A1"; "A2"] = length ["P1"; "P2"]
  ∧ ∃ σ',
      replay (multi_turn_loop (E:=client_error) "bar" ["P1"; "P2"] [] turn1)
        (map inr ["A1"; "A2"] ++ [])
      = Some ((Ok tt, σ', [] ++ transcript ["P1"; "P2"] ["A1"; "A2"]), [])
      ∧ requests (multi_turn_loop (E:=client_error) "bar" ["P1"; "P2"] []
                    turn1) (map inr ["A1"; "A2"] ++ [])
        = turn_requests (history "bar" turn1) ["P1"; "P2"] ["A1"; "A2"]
      ∧ wf σ'
      ∧ history "bar" σ'
        = history "bar" turn1 ++ turns ["P1"; "P2"] ["A1"; "A2"]
      ∧ ∀ s', s' ≠ "bar" → history s' σ' = history s' turn1.
Proof.
  split; [apply wf_turn1 |]. split; [reflexivity |].
  apply (multi_turn_loop_all_success (E:=client_error) "bar" ["P1"; "P2"]
           ["A1"; "A2"] [] [] turn1 wf_turn1).
  reflexivity.
Defined.

Lemma multi_turn_loop_abort_witness :
  wf turn1
  ∧ length ["A1"] = length ["P1"]
  ∧ ∃ σ',
      replay (multi_turn_loop (E:=client_error) "bar"
                (["P1"] ++ "P2" :: ["P3"]) [] turn1)
        (map inr ["A1"] ++ inl RateLimit :: [])
      = Some ((Raise (ModelError RateLimit), σ',
               [] ++ transcript ["P1"] ["A1"] ++ [Q_line "P2"]), [])
      ∧ requests (multi_turn_loop (E:=client_error) "bar"
                    (["P1"] ++ "P2" :: ["P3"]) [] turn1)
          (map inr ["A1"] ++ inl RateLimit :: [])
        = turn_requests (history "bar" turn1) ["P1"] ["A1"]
          ++ [history "bar" turn1 ++ turns ["P1"] ["A1"]
              ++ [HumanMessage "P2"]]
      ∧ wf σ'
      ∧ history "bar" σ' = history "bar" turn1 ++ turns ["P1"] ["A1"]
      ∧ ∀ s', s' ≠ "bar" → history s' σ' = history s' turn1.
Proof.
  split; [apply wf_turn1 |]. split; [reflexivity |].
  apply (multi_turn_loop_abort (E:=client_error) "bar" ["P1"] "P2" ["P3"]
           ["A1"] RateLimit [] [] turn1 wf_turn1).
  reflexivity.
Defined.

Lemma single_turn_loop_all_success_witness :
  length ["A1"; "A2"] = length ["P1"; "P2"]
  ∧ replay (single_turn_loop (E:=client_error) ["P1"; "P2"] [])
      (map inr ["A1"; "A2"] ++ [])
    = Some ((Ok tt, [] ++ transcript ["P1"; "P2"] ["A1"; "A2"]), [])
  ∧ requests (single_turn_loop (E:=client_error) ["P1"; "P2"] [])
      (map inr ["A1"; "A2"] ++ [])
    = map (λ p, [HumanMessage p]) ["P1"; "P2"].
Proof.
  split; [reflexivity |].
  apply (single_turn_loop_all_success (E:=client_error) ["P1"; "P2"]
           ["A1"; "A2"] [] []).
  reflexivity.
Defined.

Lemma single_turn_loop_abort_witness :
  length ["A1"] = length ["P1"]
  ∧ replay (single_turn_loop (E:=client_error) (["P1"] ++ "P2" :: ["P3"]) [])
      (map inr ["A1"] ++ inl NetworkError :: [])
    = Some ((Raise (ModelError NetworkError),
             [] ++ transcript ["P1"] ["A1"] ++ [Q_line "P2"]), [])
  ∧ requests (single_turn_loop (E:=client_error) (["P1"] ++ "P2" :: ["P3"]) [])
      (map inr ["A1"] ++ inl NetworkError :: [])
    = map (λ p, [HumanMessage p]) (["P1"] ++ ["P2"]).
Proof.
  split; [reflexivity |].
  apply (single_turn_loop_abort (E:=client_error) ["P1"] "P2" ["P3"]
           ["A1"] NetworkError [] []).
  reflexivity.
Defined.

Lemma structured_chain_inj_witness :
  requests (structured_chain (E:=client_error) "color theory") [inr "A"]
  = requests (structured_chain (E:=client_error) "color theory") [inr "A"]
  ∧ "color theory" = "color theory"
  ∧ requests (structured_chain (E:=client_error) "color theory") [inr "A"]
    = [[HumanMessage (structured_prompt "color theory")]].
Proof.
  split; [reflexivity |].
  apply (structured_chain_inj (E:=client_error) "color theory" "color theory"
           [inr "A"]).
  reflexivity.
Defined.
